(** * load_confounds: selection of fMRIprep confound regressors

    A shallow embedding of [load_confounds.py] and the properties of its
    selection engine: suffix expansion, column validation, keyword and
    indexed discovery, the category loaders and the [Confounds] class.

    Python strings are [string]s (the bytes of their UTF-8 encoding), lists
    are [list]s, and a function that may
    raise or warn is a computation in the monad [M], which threads the log of
    [warnings.warn] and stops at the first exception. *)

From Stdlib Require Import String Ascii List Bool Arith ZArith QArith Lia.
From Stdlib Require Import Decimal DecimalString DecimalPos DecimalZ.
From Stdlib Require Import Permutation Sorted.
Import ListNotations.

Local Close Scope Q_scope.
Local Open Scope string_scope.
Local Open Scope list_scope.

Set Implicit Arguments.

(** ** Strings *)

(** Python's [a + b] on [str], also used for f-strings. *)
Infix "+s+" := String.append (at level 60, right associativity).

(** ** Exceptions, warnings and the monad of a call *)

Inductive exception : Type :=
| ValueError (msg : string)
| UnboundLocalError (name : string)
| IndexError (msg : string)
| KeyError (key : string)
| OSError (msg : string).

Inductive result (A : Type) : Type :=
| Ok (a : A)
| Raise (e : exception).

Arguments Ok {A} a.
Arguments Raise {A} e.

(** The state is the list of messages passed to [warnings.warn] so far,
    oldest first. *)
Definition M (A : Type) : Type := list string -> result A * list string.

Definition ret {A} (a : A) : M A := fun w => (Ok a, w).

Definition raise {A} (e : exception) : M A := fun w => (Raise e, w).

Definition bind {A B} (m : M A) (k : A -> M B) : M B :=
  fun w =>
    match m w with
    | (Ok a, w') => k a w'
    | (Raise e, w') => (Raise e, w')
    end.

Definition warn (msg : string) : M unit := fun w => (Ok tt, w ++ [msg]).

Definition lift {A} (r : result A) : M A := fun w => (r, w).

Notation "x <- m ;; k" := (bind m (fun x => k))
  (at level 61, m at next level, right associativity).
Notation "m ;;; k" := (bind m (fun _ => k))
  (at level 61, right associativity).

(** [for x in xs: acc = body acc x], with the effects of [body]. *)
Fixpoint for_fold {A S} (xs : list A) (acc : S) (body : S -> A -> M S) : M S :=
  match xs with
  | [] => ret acc
  | x :: xs' => acc' <- body acc x ;; for_fold xs' acc' body
  end.

(** The result and the warnings of a call started with the log [w]. *)
Definition value_of {A} (m : M A) (w : list string) : result A := fst (m w).
Definition warnings_of {A} (m : M A) (w : list string) : list string := snd (m w).

(** The three error kinds of the selection engine are all [ValueError]s,
    told apart by their message. *)
Definition InvalidStrategy_unsupported (conf : string) : exception :=
  ValueError (conf +s+ " is not a supported type of confounds.").

Definition InvalidStrategy_not_a_list : exception :=
  ValueError "strategy needs to be a list of strings".

Definition MissingColumn (par : string) : exception :=
  ValueError ("The parameter " +s+ par +s+
    " cannot be found in the available confounds. You may want to use a different denoising strategy'").

Definition NoMatchingColumn (key : string) : exception :=
  ValueError ("could not find any confound with the key " +s+ key).

Definition MissingComponent (compcor_col : string) : string :=
  "could not find any confound with the key " +s+ compcor_col.

(** ** More on strings *)

(** [key in col] for two [str]: [key] occurs in [col] as a substring. *)
Fixpoint str_in (key col : string) : bool :=
  String.prefix key col ||
  match col with
  | EmptyString => false
  | String _ rest => str_in key rest
  end.

(** [str(nn)] for an [int]. *)
Definition str (nn : Z) : string :=
  NilZero.string_of_int (Z.to_int nn).

Fixpoint zeros (n : nat) : string :=
  match n with
  | O => EmptyString
  | S n' => String "0" (zeros n')
  end.

(** [s.zfill(width)]: pads with ["0"] on the left up to [width] characters,
    after a leading sign if there is one. *)
Definition zfill (width : nat) (s : string) : string :=
  let fill := zeros (width - String.length s) in
  match s with
  | String c rest =>
      if (Ascii.eqb c "+" || Ascii.eqb c "-")%bool
      then String c (fill +s+ rest)
      else fill +s+ s
  | EmptyString => fill
  end.

(** [names.sort()] on a list of [str]: ascending code-point order. *)
Fixpoint insert_sorted (x : string) (l : list string) : list string :=
  match l with
  | [] => [x]
  | y :: l' => if String.leb x y then x :: l else y :: insert_sorted x l'
  end.

Definition sort (l : list string) : list string :=
  fold_right insert_sorted [] l.

(** A [str] is held as the bytes of its UTF-8 encoding.  Searching,
    splitting and replacing are the same on the bytes as on the characters;
    an index counts characters, which start at the bytes that are not
    continuation bytes [10xxxxxx]. *)
Definition is_continuation (c : ascii) : bool :=
  match c with
  | Ascii _ _ _ _ _ _ b6 b7 => b7 && negb b6
  end.

(** [len(s)], the number of characters. *)
Fixpoint code_points (s : string) : nat :=
  match s with
  | EmptyString => O
  | String c rest =>
      if is_continuation c then code_points rest else S (code_points rest)
  end.

(** [s[-n:]], the last [n] characters of [s], or [s] when it is shorter. *)
Fixpoint last_chars (n : nat) (s : string) : string :=
  match s with
  | EmptyString => EmptyString
  | String c rest =>
      if (Nat.leb (code_points s) n && negb (is_continuation c))%bool
      then s
      else last_chars n rest
  end.

(** [s[n:]] *)
Fixpoint drop_chars (n : nat) (s : string) : string :=
  match n, s with
  | O, _ => s
  | S n', String _ rest => drop_chars n' rest
  | S _, EmptyString => EmptyString
  end.

(** The text before and after the first occurrence of [sep] in [s]. *)
Fixpoint partition (sep s : string) : option (string * string) :=
  if String.prefix sep s then Some (EmptyString, drop_chars (String.length sep) s)
  else
    match s with
    | EmptyString => None
    | String c rest =>
        match partition sep rest with
        | Some (before, after) => Some (String c before, after)
        | None => None
        end
    end.

(** [s.split(sep)[1]] for a non-empty [sep]: the text between the first and
    the second occurrence of [sep]; [IndexError] when [sep] does not occur. *)
Definition split_item1 (sep s : string) : result string :=
  match partition sep s with
  | None => Raise (IndexError "list index out of range")
  | Some (_, after) =>
      match partition sep after with
      | None => Ok after
      | Some (item, _) => Ok item
      end
  end.

(** [s.replace(old, new)] for a non-empty [old]; [skip] counts the characters
    of a replaced occurrence that are still to be passed over. *)
Fixpoint replace_from (skip : nat) (old new s : string) : string :=
  match s with
  | EmptyString => EmptyString
  | String c rest =>
      match skip with
      | S skip' => replace_from skip' old new rest
      | O =>
          if String.prefix old s
          then new +s+ replace_from (String.length old - 1) old new rest
          else String c (replace_from 0 old new rest)
      end
  end.

Definition replace (old new s : string) : string := replace_from 0 old new s.


(** [range(n)] *)
Definition range (n : Z) : list Z :=
  map Z.of_nat (seq 0 (Z.to_nat n)).

(** [par in names] for a [str] and a sequence of [str]. *)
Definition mem (par : string) (names : list string) : bool :=
  existsb (String.eqb par) names.

(** ** [_add_suffix] *)

(** Global variable listing the admissible types of noise components. *)
Definition all_confounds : list string :=
  ["motion"; "high_pass"; "wm_csf"; "global"; "compcor"].

(** One turn of the loop of [_add_suffix] on [par]. *)
Definition _add_suffix_body (model : string) (params_full : list string)
    (par : string) : list string :=
  let params_full :=
    if ((model =? "derivatives") || (model =? "full"))%bool
    then params_full ++ [par +s+ "_derivative1"] else params_full in
  let params_full :=
    if ((model =? "power2") || (model =? "full"))%bool
    then params_full ++ [par +s+ "_power2"] else params_full in
  let params_full :=
    if (model =? "full")
    then params_full ++ [par +s+ "_derivative1_power2"] else params_full in
  params_full.

Definition _add_suffix (params : list string) (model : string) : list string :=
  let params_full := params in
  fold_left (_add_suffix_body model) params params_full.


(** Arguments of the constructor other than a list of strings. *)
Inductive atom : Type :=
| Str (s : string)
| Int (z : Z)
| NoneVal.

(** What a caller may pass as [strategy]: a list, or something that is not
    a list. *)
Inductive strategy_arg : Type :=
| ListOf (items : list atom)
| TupleOf (items : list atom)
| Atom (a : atom).

(** [conf == name] for a [str] [name] *)
Definition atom_eq_str (conf : atom) (name : string) : bool :=
  match conf with
  | Str s => String.eqb s name
  | _ => false
  end.

(** [conf in names] and [name in items] *)
Definition atom_in (conf : atom) (names : list string) : bool :=
  existsb (atom_eq_str conf) names.

Definition in_atoms (name : string) (items : list atom) : bool :=
  existsb (fun conf => atom_eq_str conf name) items.

(** [f"{conf}"] *)
Definition format (conf : atom) : string :=
  match conf with
  | Str s => s
  | Int z => str z
  | NoneVal => "None"
  end.

(** [for x in xs: body x] *)
Fixpoint for_each {A} (xs : list A) (body : A -> M unit) : M unit :=
  match xs with
  | [] => ret tt
  | x :: xs' => body x ;;; for_each xs' body
  end.

(** ** Tables *)

Section Model.

Context {value : Type}.

(** A [pandas.DataFrame] with the default row labels [0 .. nrows-1]: the
    columns in order with their names, which may repeat, and one cell per
    row; [None] is a missing value (NaN).  The type of the entries plays no
    part in the selection. *)
Record DataFrame : Type := {
  nrows : nat;
  data : list (string * list (option value))
}.

(** A two-dimensional [numpy] array, column by column. *)
Record ndarray : Type := {
  n_samples : nat;
  features : list (list (option value))
}.

(** What the module calls and does not define: [pandas.read_csv] on a
    tab-separated file and the two [sklearn] estimators of [_pca_motion]. *)
Class External : Type := {
  read_csv : string -> result DataFrame;
  StandardScaler_fit_transform : ndarray -> result ndarray;
  PCA_fit_transform : Q -> ndarray -> result ndarray
}.

(** [df.columns] *)
Definition columns (df : DataFrame) : list string := map fst (data df).

(** [pd.DataFrame()] *)
Definition empty_frame : DataFrame := {| nrows := 0; data := [] |}.

(** [df[names]]: for each name in turn, every column of that name;
    [KeyError] if a name labels no column. *)
Definition getitem (df : DataFrame) (names : list string) : M DataFrame :=
  match filter (fun par => negb (mem par (columns df))) names with
  | [] =>
      ret {| nrows := nrows df;
             data := flat_map
               (fun par => filter (fun c => String.eqb (fst c) par) (data df))
               names |}
  | par :: _ => raise (KeyError par)
  end.

(** A column on the row labels [0 .. n-1]: rows it lacks are missing. *)
Definition reindex (n : nat) (col : list (option value))
    : list (option value) :=
  firstn n col ++ repeat None (n - length col).

(** [pd.concat([a, b], axis=1)]: the columns of [a] then those of [b], on
    the union of the row labels. *)
Definition concat_axis1 (a b : DataFrame) : DataFrame :=
  let n := Nat.max (nrows a) (nrows b) in
  {| nrows := n;
     data := map (fun c => (fst c, reindex n (snd c))) (data a ++ data b) |}.

(** [df.dropna()]: the rows without a missing value. *)
Definition row_complete (df : DataFrame) (i : nat) : bool :=
  forallb (fun c => match nth i (snd c) None with
                    | Some _ => true
                    | None => false
                    end) (data df).

Definition dropna (df : DataFrame) : DataFrame :=
  let keep := filter (row_complete df) (seq 0 (nrows df)) in
  {| nrows := length keep;
     data := map (fun c => (fst c, map (fun i => nth i (snd c) None) keep))
                 (data df) |}.

(** The array of the entries of [df]. *)
Definition values (df : DataFrame) : ndarray :=
  {| n_samples := nrows df; features := map snd (data df) |}.

(** ** Validation and discovery of columns *)

Definition _check_params (confounds_raw : DataFrame) (params : list string)
    : M unit :=
  for_each params (fun par =>
    if negb (mem par (columns confounds_raw))
    then raise (MissingColumn par)
    else ret tt).

(** The inner loop of [_find_confounds] for one [key]: the state is
    [(list_confounds, key_found)]. *)
Definition _find_confounds_scan (key : string) (cols : list string)
    (list_confounds : list string) : list string * bool :=
  fold_left
    (fun (st : list string * bool) col =>
       if str_in key col then (fst st ++ [col], true) else st)
    cols (list_confounds, false).

Definition _find_confounds (confounds_raw : DataFrame) (keywords : list string)
    : M (list string) :=
  for_fold keywords [] (fun list_confounds key =>
    let '(list_confounds, key_found) :=
      _find_confounds_scan key (columns confounds_raw) list_confounds in
    if negb key_found
    then raise (NoMatchingColumn key)
    else ret list_confounds).

Definition _label_compcor (confounds_raw : DataFrame) (compcor_suffix : string)
    (n_compcor : Z) : M (list string) :=
  for_fold (range (n_compcor + 1)) [] (fun compcor_cols nn =>
    let nn_str := zfill 2 (str nn) in
    let compcor_col := compcor_suffix +s+ "_comp_cor_" +s+ nn_str in
    if negb (mem compcor_col (columns confounds_raw))
    then warn (MissingComponent compcor_col) ;;; ret compcor_cols
    else ret (compcor_cols ++ [compcor_col])).

(** ** Category loaders *)

Definition _load_global (confounds_raw : DataFrame) (global_signal : string)
    : M DataFrame :=
  let global_params := _add_suffix ["global_signal"] global_signal in
  _check_params confounds_raw global_params ;;;
  getitem confounds_raw global_params.

Definition _load_wm_csf (confounds_raw : DataFrame) (wm_csf : string)
    : M DataFrame :=
  let wm_csf_params := _add_suffix ["csf"; "white_matter"] wm_csf in
  _check_params confounds_raw wm_csf_params ;;;
  getitem confounds_raw wm_csf_params.

Definition _load_high_pass (confounds_raw : DataFrame) : M DataFrame :=
  high_pass_params <- _find_confounds confounds_raw ["cosine"] ;;
  getitem confounds_raw high_pass_params.

(** [compcor_cols] is a local variable that is bound only in the three
    branches: [None] stands for the unbound variable. *)
Definition _load_compcor (confounds_raw : DataFrame) (compcor : string)
    (n_compcor : Z) : M DataFrame :=
  let compcor_cols : option (list string) := None in
  compcor_cols <-
    (if compcor =? "anat"
     then cols <- _label_compcor confounds_raw "a" n_compcor ;; ret (Some cols)
     else ret compcor_cols) ;;
  compcor_cols <-
    (if compcor =? "temp"
     then cols <- _label_compcor confounds_raw "t" n_compcor ;; ret (Some cols)
     else ret compcor_cols) ;;
  compcor_cols <-
    (if compcor =? "full"
     then cols <- _label_compcor confounds_raw "a" n_compcor ;;
          more <- _label_compcor confounds_raw "t" n_compcor ;;
          ret (Some (cols ++ more))
     else ret compcor_cols) ;;
  match compcor_cols with
  | None => raise (UnboundLocalError "compcor_cols")
  | Some compcor_cols =>
      let compcor_cols := sort compcor_cols in
      _check_params confounds_raw compcor_cols ;;;
      getitem confounds_raw compcor_cols
  end.

Context {ext : External}.

(** Reduce the motion parameters using PCA.  The frame built from the
    array has the column labels [0 .. k-1], renamed in the last step. *)
Definition _pca_motion (confounds_motion : DataFrame) (n_components : Q)
    : M DataFrame :=
  let confounds_motion := dropna confounds_motion in
  confounds_motion_std <-
    lift (StandardScaler_fit_transform (values confounds_motion)) ;;
  fitted <- lift (PCA_fit_transform n_components confounds_motion_std) ;;
  let motion_pca_columns := range (Z.of_nat (length (features fitted))) in
  let renamed :=
    map (fun col => "motion_pca_" +s+ str (col + 1)) motion_pca_columns in
  ret {| nrows := n_samples fitted;
         data := combine renamed (features fitted) |}.

Definition _load_motion (confounds_raw : DataFrame) (motion : string)
    (n_motion : Q) : M DataFrame :=
  let motion_params :=
    _add_suffix ["trans_x"; "trans_y"; "trans_z"; "rot_x"; "rot_y"; "rot_z"]
                motion in
  _check_params confounds_raw motion_params ;;;
  confounds_motion <- getitem confounds_raw motion_params ;;
  if Qlt_le_dec 0 n_motion
  then _pca_motion confounds_motion n_motion
  else ret confounds_motion.

(** ** The [Confounds] class *)

Definition _sanitize_strategy (strategy : strategy_arg) : M (list atom) :=
  match strategy with
  | ListOf items =>
      for_each items (fun conf =>
        if negb (atom_in conf all_confounds)
        then raise (InvalidStrategy_unsupported (format conf))
        else ret tt) ;;;
      ret items
  | _ => raise InvalidStrategy_not_a_list
  end.

(** One set of raw confounds: the path of a file or a table. *)
Inductive confounds_source : Type :=
| Path (path : string)
| Frame (df : DataFrame).

(** The argument of [load]: one set of confounds, or a list of them. *)
Inductive load_arg : Type :=
| One (confounds_raw : confounds_source)
| Several (confounds_raw : list confounds_source).

(** What [load] returns: one table, or a list of tables. *)
Inductive loaded : Type :=
| Table (df : DataFrame)
| Tables (dfs : list DataFrame).

Definition _confounds2df (confounds_raw : confounds_source) : M DataFrame :=
  match confounds_raw with
  | Frame df => ret df
  | Path confounds_raw =>
      confounds_raw <-
        (if str_in "nii" (last_chars 6 confounds_raw)
         then
           item <- lift (split_item1 "space-" confounds_raw) ;;
           let suffix := "_space-" +s+ item in
           ret (replace suffix "_desc-confounds_regressors.tsv" confounds_raw)
         else ret confounds_raw) ;;
      lift (read_csv confounds_raw)
  end.

Definition _sanitize_confounds (confounds_raw : load_arg)
    : list confounds_source * bool :=
  match confounds_raw with
  | One single => ([single], true)
  | Several many => (many, false)
  end.

(** The attributes of an instance; [confounds_] is unset until [load]
    returns. *)
Record Confounds : Type := {
  strategy : list atom;
  motion : string;
  n_motion : Q;
  wm_csf : string;
  global_signal : string;
  compcor : string;
  n_compcor : Z;
  confounds_ : option loaded
}.

Definition __init__ (strategy : strategy_arg) (motion : string) (n_motion : Q)
    (wm_csf global_signal compcor : string) (n_compcor : Z) : M Confounds :=
  strategy <- _sanitize_strategy strategy ;;
  ret {| strategy := strategy;
         motion := motion;
         n_motion := n_motion;
         wm_csf := wm_csf;
         global_signal := global_signal;
         compcor := compcor;
         n_compcor := n_compcor;
         confounds_ := None |}.

Definition set_confounds_ (self : Confounds) (confounds_out : loaded)
    : Confounds :=
  {| strategy := strategy self;
     motion := motion self;
     n_motion := n_motion self;
     wm_csf := wm_csf self;
     global_signal := global_signal self;
     compcor := compcor self;
     n_compcor := n_compcor self;
     confounds_ := Some confounds_out |}.

(** Load a single confounds file from fmriprep. *)
Definition _load_single (self : Confounds) (confounds_raw : confounds_source)
    : M DataFrame :=
  confounds_raw <- _confounds2df confounds_raw ;;
  let confounds := empty_frame in
  confounds <-
    (if in_atoms "motion" (strategy self)
     then confounds_motion <-
            _load_motion confounds_raw (motion self) (n_motion self) ;;
          ret (concat_axis1 confounds confounds_motion)
     else ret confounds) ;;
  confounds <-
    (if in_atoms "high_pass" (strategy self)
     then confounds_high_pass <- _load_high_pass confounds_raw ;;
          ret (concat_axis1 confounds confounds_high_pass)
     else ret confounds) ;;
  confounds <-
    (if in_atoms "wm_csf" (strategy self)
     then confounds_wm_csf <- _load_wm_csf confounds_raw (wm_csf self) ;;
          ret (concat_axis1 confounds confounds_wm_csf)
     else ret confounds) ;;
  confounds <-
    (if in_atoms "global" (strategy self)
     then confounds_global_signal <-
            _load_global confounds_raw (global_signal self) ;;
          ret (concat_axis1 confounds confounds_global_signal)
     else ret confounds) ;;
  confounds <-
    (if in_atoms "compcor" (strategy self)
     then confounds_compcor <-
            _load_compcor confounds_raw (compcor self) (n_compcor self) ;;
          ret (concat_axis1 confounds confounds_compcor)
     else ret confounds) ;;
  ret confounds.

(** [load] returns its result and leaves it in [self.confounds_]: the
    instance after the call is the first component. *)
Definition load (self : Confounds) (confounds_raw : load_arg)
    : M (Confounds * loaded) :=
  let '(confounds_raw, flag_single) := _sanitize_confounds confounds_raw in
  confounds_out <-
    for_fold confounds_raw [] (fun confounds_out file =>
      confounds <- _load_single self file ;;
      ret (confounds_out ++ [confounds])) ;;
  confounds_out <-
    (if flag_single : bool
     then match confounds_out with
          | first :: _ => ret (Table first)
          | [] => raise (IndexError "list index out of range")
          end
     else ret (Tables confounds_out)) ;;
  ret (set_confounds_ self confounds_out, confounds_out).

End Model.

Arguments DataFrame value : clear implicits.
Arguments ndarray value : clear implicits.
Arguments External value : clear implicits.
Arguments confounds_source value : clear implicits.
Arguments load_arg value : clear implicits.
Arguments loaded value : clear implicits.
Arguments Confounds value : clear implicits.

Unset Implicit Arguments.

(** ** Vocabulary of the statements *)

(** The names that one turn of the loop of [_add_suffix] adds for [par]. *)
Definition suffixed (model par : string) : list string :=
  (if ((model =? "derivatives") || (model =? "full"))%bool
   then [par +s+ "_derivative1"] else []) ++
  (if ((model =? "power2") || (model =? "full"))%bool
   then [par +s+ "_power2"] else []) ++
  (if (model =? "full") then [par +s+ "_derivative1_power2"] else []).

(** The expansion grouped by suffix: all the bases, then one suffix after
    the other, each applied to every base. *)
Definition grouped_by_suffix (params : list string) : list string :=
  params ++
  map (fun par => par +s+ "_derivative1") params ++
  map (fun par => par +s+ "_power2") params ++
  map (fun par => par +s+ "_derivative1_power2") params.

(** How many names the expansion has for each base. *)
Definition names_per_base (model : string) : nat :=
  if model =? "full" then 4
  else if ((model =? "derivatives") || (model =? "power2"))%bool then 2
  else 1.

(** [key] occurs in [col]: some text, then [key], then some text. *)
Definition substring_of (key col : string) : Prop :=
  exists before after, col = before +s+ key +s+ after.

(** The index [nn] zero-padded to two digits. *)
Definition zero_padded2 (nn : Z) : string :=
  if (nn <? 10)%Z then "0" +s+ str nn else str nn.

(** The candidate names of the indexed selector, for the indices
    [0 .. N] in order. *)
Definition compcor_candidates (prefix : string) (N : Z) : list string :=
  map (fun nn => prefix +s+ "_comp_cor_" +s+ zero_padded2 nn) (range (N + 1)).

(** A computation that only adds warnings to the log it is given, and whose
    result does not depend on that log. *)
Definition appends {A} (m : M A) : Prop :=
  forall w, m w = (fst (m []), w ++ snd (m [])).

(** [par not in confounds_raw.columns] *)
Definition absent {value} (confounds_raw : DataFrame value) (par : string)
    : bool :=
  negb (mem par (columns confounds_raw)).

(** No column name of [confounds_raw] contains [key]. *)
Definition unmatched {value} (confounds_raw : DataFrame value) (key : string)
    : bool :=
  negb (existsb (str_in key) (columns confounds_raw)).

(** The columns of [confounds_raw] picked by [names]: for each name in
    turn, the columns of that name, with all the rows. *)
Definition selection {value} (confounds_raw : DataFrame value)
    (names : list string) : DataFrame value :=
  {| nrows := nrows confounds_raw;
     data := flat_map
       (fun par => filter (fun c => String.eqb (fst c) par)
                          (data confounds_raw))
       names |}.

(** A member of the fixed vocabulary of categories. *)
Definition supported (conf : atom) : Prop :=
  exists name, In name all_confounds /\ conf = Str name.

(** The errors of a rejected strategy. *)
Definition InvalidStrategy (e : exception) : Prop :=
  e = InvalidStrategy_not_a_list
  \/ exists conf, e = InvalidStrategy_unsupported (format conf).

(** A table without a missing value: every column has one entry per row. *)
Definition complete {value} (df : DataFrame value) : Prop :=
  Forall (fun c => length (snd c) = nrows df
                   /\ Forall (fun x => x <> None) (snd c))
         (data df).

(** The shapes that the two estimators document for what they return: the
    scaler keeps the number of samples, and the analysis asked for an
    integer number [k > 0] of components returns [k] features for the same
    samples. *)
Definition sklearn_shapes {value} (ext : External value) : Prop :=
  (forall X Xs,
     StandardScaler_fit_transform X = Ok Xs -> n_samples Xs = n_samples X)
  /\ (forall (k : Z) X Y,
        (0 < k)%Z ->
        PCA_fit_transform (inject_Z k) X = Ok Y ->
        n_samples Y = n_samples X /\ length (features Y) = Z.to_nat k).

(** [motion_pca_1 .. motion_pca_k] *)
Definition motion_pca_names (k : Z) : list string :=
  map (fun i => "motion_pca_" +s+ str (Z.of_nat i)) (seq 1 (Z.to_nat k)).

(** The six rigid-body motion parameters. *)
Definition motion_bases : list string :=
  ["trans_x"; "trans_y"; "trans_z"; "rot_x"; "rot_y"; "rot_z"].

(** A table with the given columns, all of them holding the same cells. *)
Definition frame_of (cells : list (option Z)) (names : list string)
    : DataFrame Z :=
  {| nrows := length cells; data := map (fun name => (name, cells)) names |}.

(** A raw table of three time points with the basic motion, cosine, tissue
    and global columns and the first four anatomical components. *)
Definition raw_example : DataFrame Z :=
  frame_of [Some 1%Z; Some 2%Z; Some 4%Z]
    ["global_signal"; "csf"; "white_matter";
     "trans_x"; "trans_y"; "trans_z"; "rot_x"; "rot_y"; "rot_z";
     "framewise_displacement"; "cosine00"; "cosine01";
     "a_comp_cor_00"; "a_comp_cor_01"; "a_comp_cor_02"; "a_comp_cor_03"].

(** The category loaders of an instance on a raw table, under their
    names, in the order in which [_load_single] goes through them. *)
Definition category_loaders {value} {ext : External value}
    (self : Confounds value) (confounds_raw : DataFrame value)
    : list (string * M (DataFrame value)) :=
  [("motion", _load_motion confounds_raw (motion self) (n_motion self));
   ("high_pass", _load_high_pass confounds_raw);
   ("wm_csf", _load_wm_csf confounds_raw (wm_csf self));
   ("global", _load_global confounds_raw (global_signal self));
   ("compcor", _load_compcor confounds_raw (compcor self) (n_compcor self))].

(** The loaders of the categories named in the strategy of [self]. *)
Definition active_loaders {value} {ext : External value}
    (self : Confounds value) (confounds_raw : DataFrame value)
    : list (string * M (DataFrame value)) :=
  filter (fun loader => in_atoms (fst loader) (strategy self))
         (category_loaders self confounds_raw).

(** A loader returns the table [out]. *)
Definition loads {value} (loader : string * M (DataFrame value))
    (out : DataFrame value) : Prop :=
  value_of (snd loader) [] = Ok out.

(** The column-wise concatenation of tables, from the empty table on. *)
Definition concat_all {value} (outs : list (DataFrame value))
    : DataFrame value :=
  fold_left concat_axis1 outs empty_frame.

(** The instance [self] with another list as its strategy. *)
Definition with_strategy {value} (self : Confounds value) (items : list atom)
    : Confounds value :=
  {| strategy := items;
     motion := motion self;
     n_motion := n_motion self;
     wm_csf := wm_csf self;
     global_signal := global_signal self;
     compcor := compcor self;
     n_compcor := n_compcor self;
     confounds_ := confounds_ self |}.

(** A table of [n] rows in which every column has its [n] entries. *)
Definition regular {value} (n : nat) (df : DataFrame value) : Prop :=
  nrows df = n /\ Forall (fun c => length (snd c) = n) (data df).


(** [_load_single] returns the table [df] for the input [src]. *)
Definition loaded_from {value} {ext : External value}
    (self : Confounds value) (src : confounds_source value)
    (df : DataFrame value) : Prop :=
  value_of (_load_single self src) [] = Ok df.

(** The step of [_load_single] for one loader. *)
Definition concat_step {value} (confounds : DataFrame value)
    (loader : string * M (DataFrame value)) : M (DataFrame value) :=
  out <- snd loader ;; ret (concat_axis1 confounds out).

(** External calls for the examples: one file on disk, a scaler that
    returns its input, and an analysis that keeps the first [k] features
    and, like the library, refuses a [k] beyond the features or samples. *)
Definition example_external : External Z :=
  {| read_csv := fun path =>
       if path =? "sub-01_desc-confounds_regressors.tsv"
       then Ok raw_example
       else Raise (OSError "No such file or directory");
     StandardScaler_fit_transform := fun X => Ok X;
     PCA_fit_transform := fun n_components X =>
       let k := Z.to_nat (Qnum n_components) in
       if (Pos.eqb (Qden n_components) 1
           && (0 <? Qnum n_components)%Z
           && Nat.leb k (length (features X))
           && Nat.leb k (n_samples X))%bool
       then Ok {| n_samples := n_samples X;
                  features := firstn k (features X) |}
       else Raise (ValueError "n_components must be between 0 and min(n_samples, n_features)") |}.

(** An instance with the strategy and motion settings of the preset [P6];
    the other attributes are the defaults of [Confounds]. *)
Definition confounds_6P : Confounds Z :=
  {| strategy := [Str "high_pass"; Str "motion"];
     motion := "basic";
     n_motion := 0;
     wm_csf := "basic";
     global_signal := "basic";
     compcor := "anat";
     n_compcor := 6;
     confounds_ := None |}.

(** An instance with motion and compcor and a misspelt compcor variant. *)
Definition confounds_bogus : Confounds Z :=
  {| strategy := [Str "compcor"; Str "motion"];
     motion := "basic";
     n_motion := 0;
     wm_csf := "basic";
     global_signal := "basic";
     compcor := "anatomical";
     n_compcor := 6;
     confounds_ := None |}.

(** What [confounds_6P] selects from [raw_example]. *)
Definition selected_6P : DataFrame Z :=
  frame_of [Some 1%Z; Some 2%Z; Some 4%Z]
    ["trans_x"; "trans_y"; "trans_z"; "rot_x"; "rot_y"; "rot_z";
     "cosine00"; "cosine01"].

(** The prefixes of the component names that a compcor variant asks for. *)
Definition compcor_prefixes (variant : string) : list string :=
  if variant =? "anat" then ["a"]
  else if variant =? "temp" then ["t"]
  else if variant =? "full" then ["a"; "t"]
  else [].

(** The candidate names of a compcor variant, prefix after prefix. *)
Definition variant_candidates (variant : string) (N : Z) : list string :=
  flat_map (fun prefix => compcor_candidates prefix N)
           (compcor_prefixes variant).

(** The column names that the settings of [self] select from a table,
    category after category, when no motion reduction is asked for. *)
Definition expected_columns {value} (self : Confounds value)
    (confounds_raw : DataFrame value) : list string :=
  (if in_atoms "motion" (strategy self)
   then _add_suffix motion_bases (motion self) else []) ++
  (if in_atoms "high_pass" (strategy self)
   then filter (str_in "cosine") (columns confounds_raw) else []) ++
  (if in_atoms "wm_csf" (strategy self)
   then _add_suffix ["csf"; "white_matter"] (wm_csf self) else []) ++
  (if in_atoms "global" (strategy self)
   then _add_suffix ["global_signal"] (global_signal self) else []) ++
  (if in_atoms "compcor" (strategy self)
   then sort (filter (fun c => mem c (columns confounds_raw))
                     (variant_candidates (compcor self) (n_compcor self)))
   else []).

(** What the active categories of [self] need of a table. *)
Definition loadable {value} (self : Confounds value)
    (confounds_raw : DataFrame value) : Prop :=
  (in_atoms "motion" (strategy self) = true ->
   forall par, In par (_add_suffix motion_bases (motion self)) ->
               In par (columns confounds_raw))
  /\ (in_atoms "high_pass" (strategy self) = true ->
      exists col, In col (columns confounds_raw) /\ substring_of "cosine" col)
  /\ (in_atoms "wm_csf" (strategy self) = true ->
      forall par, In par (_add_suffix ["csf"; "white_matter"] (wm_csf self)) ->
                  In par (columns confounds_raw))
  /\ (in_atoms "global" (strategy self) = true ->
      forall par, In par (_add_suffix ["global_signal"] (global_signal self)) ->
                  In par (columns confounds_raw))
  /\ (in_atoms "compcor" (strategy self) = true ->
      compcor self = "anat" \/ compcor self = "temp" \/ compcor self = "full").

(** The presets of Ciric et al.: each constructor sets the attributes
    listed here on the new instance and leaves the others unset; [self] is
    the instance before the assignments. *)
Definition P2 {value} (self : Confounds value) : Confounds value :=
  {| strategy := [Str "high_pass"; Str "wm_csf"];
     motion := motion self;
     n_motion := n_motion self;
     wm_csf := "basic";
     global_signal := global_signal self;
     compcor := compcor self;
     n_compcor := n_compcor self;
     confounds_ := confounds_ self |}.

Definition P6 {value} (self : Confounds value) : Confounds value :=
  {| strategy := [Str "high_pass"; Str "motion"];
     motion := "basic";
     n_motion := 0;
     wm_csf := wm_csf self;
     global_signal := global_signal self;
     compcor := compcor self;
     n_compcor := n_compcor self;
     confounds_ := confounds_ self |}.

Definition P9 {value} (self : Confounds value) : Confounds value :=
  {| strategy := [Str "high_pass"; Str "motion"; Str "wm_csf"; Str "global"];
     motion := "basic";
     n_motion := 0;
     wm_csf := "basic";
     global_signal := "basic";
     compcor := compcor self;
     n_compcor := n_compcor self;
     confounds_ := confounds_ self |}.

Definition P24 {value} (self : Confounds value) : Confounds value :=
  {| strategy := [Str "high_pass"; Str "motion"];
     motion := "full";
     n_motion := 0;
     wm_csf := wm_csf self;
     global_signal := global_signal self;
     compcor := compcor self;
     n_compcor := n_compcor self;
     confounds_ := confounds_ self |}.

Definition P36 {value} (self : Confounds value) : Confounds value :=
  {| strategy := [Str "high_pass"; Str "motion"; Str "wm_csf"; Str "global"];
     motion := "full";
     n_motion := 0;
     wm_csf := "full";
     global_signal := "full";
     compcor := compcor self;
     n_compcor := n_compcor self;
     confounds_ := confounds_ self |}.

(** The character [c] occurs in [s]. *)
Fixpoint has_char (c : ascii) (s : string) : bool :=
  match s with
  | EmptyString => false
  | String x rest => Ascii.eqb x c || has_char c rest
  end.

(** The second character of [name] is an underscore, as in the names of
    the components. *)
Definition component_like (name : string) : bool :=
  match name with
  | String _ (String c _) => Ascii.eqb c "_"
  | _ => false
  end.

(** The number that a string of digits writes. *)
Definition parse_index (s : string) : option Z :=
  option_map Z.of_int (NilZero.int_of_string s).



(** The two bytes of a Latin small letter e with acute, and the path of
    an image that ends with two of them. *)
Definition e_acute : string := String "195" (String "169" EmptyString).

Definition accented_image_path : string :=
  "sub_space-X.nii" +s+ e_acute +s+ e_acute.

(** No name occurs twice in [names]. *)
Fixpoint distinct (names : list string) : bool :=
  match names with
  | [] => true
  | name :: rest => negb (mem name rest) && distinct rest
  end.

(** A raw table of three time points with every column of the full
    expansions and two cosine columns. *)
Definition raw_full : DataFrame Z :=
  frame_of [Some 1%Z; Some 2%Z; Some 4%Z]
    (["cosine00"; "cosine01"; "framewise_displacement"]
     ++ _add_suffix ["global_signal"] "full"
     ++ _add_suffix ["csf"; "white_matter"] "full"
     ++ _add_suffix motion_bases "full").

(** Two motion columns over three time points, one value missing. *)
Definition motion_with_gap : DataFrame Z :=
  {| nrows := 3;
     data := [("trans_x", [Some 1%Z; None; Some 3%Z]);
              ("trans_y", [Some 5%Z; Some 7%Z; Some 9%Z])] |}.

(** ** Properties *)

Section MonadFacts.

Context {A B : Type}.

Lemma bind_ok (m : M A) (k : A -> M B) (w w' : list string) (a : A) :
  m w = (Ok a, w') -> bind m k w = k a w'.
Proof. unfold bind. intros ->. reflexivity. Qed.

Lemma bind_raise (m : M A) (k : A -> M B) (w w' : list string) (e : exception) :
  m w = (Raise e, w') -> bind m k w = (Raise e, w').
Proof. unfold bind. intros ->. reflexivity. Qed.

Lemma bind_inv_ok (m : M A) (k : A -> M B) (w w' : list string) (b : B) :
  bind m k w = (Ok b, w') ->
  exists a w1, m w = (Ok a, w1) /\ k a w1 = (Ok b, w').
Proof.
  unfold bind. destruct (m w) as [[a|e] w1]; intros H.
  - exists a, w1. split; [reflexivity | exact H].
  - discriminate H.
Qed.

End MonadFacts.

(** *** The expander *)

Lemma add_suffix_body_app (model : string) (acc : list string) (par : string) :
  _add_suffix_body model acc par = acc ++ suffixed model par.
Proof.
  unfold _add_suffix_body, suffixed.
  destruct ((model =? "derivatives") || (model =? "full"))%bool,
           ((model =? "power2") || (model =? "full"))%bool,
           (model =? "full"); simpl;
    repeat rewrite <- app_assoc; simpl; try rewrite app_nil_r; reflexivity.
Qed.

Lemma add_suffix_fold (model : string) (params acc : list string) :
  fold_left (_add_suffix_body model) params acc
  = acc ++ flat_map (suffixed model) params.
Proof.
  revert acc. induction params as [|par params IH]; intros acc; simpl.
  - now rewrite app_nil_r.
  - rewrite IH, add_suffix_body_app, <- app_assoc. reflexivity.
Qed.

Lemma add_suffix_eq (params : list string) (model : string) :
  _add_suffix params model = params ++ flat_map (suffixed model) params.
Proof. unfold _add_suffix. apply add_suffix_fold. Qed.

Lemma suffixed_length (model par : string) :
  length (suffixed model par) = names_per_base model - 1.
Proof.
  unfold suffixed, names_per_base.
  destruct (model =? "full") eqn:Hf.
  - apply String.eqb_eq in Hf. subst model. reflexivity.
  - rewrite !orb_false_r.
    destruct (model =? "derivatives") eqn:Hd.
    + apply String.eqb_eq in Hd. subst model. reflexivity.
    + destruct (model =? "power2"); reflexivity.
Qed.

Lemma flat_map_suffixed_length (model : string) (params : list string) :
  length (flat_map (suffixed model) params)
  = (names_per_base model - 1) * length params.
Proof.
  induction params as [|par params IH]; simpl.
  - lia.
  - rewrite length_app, IH, suffixed_length. lia.
Qed.

Lemma names_per_base_pos (model : string) : 1 <= names_per_base model.
Proof.
  unfold names_per_base.
  destruct (model =? "full"); [lia|].
  destruct ((model =? "derivatives") || (model =? "power2"))%bool; lia.
Qed.

(** C2 (as amended): with mode "full" the expansion lists the base names
    and then, for each base in turn, its [_derivative1], [_power2] and
    [_derivative1_power2] names together; with "derivatives" and "power2"
    the bases are followed by the one suffix applied to each base in turn. *)
Theorem add_suffix_order (params : list string) :
  _add_suffix params "full"
    = params ++ flat_map (fun par => [par +s+ "_derivative1";
                                      par +s+ "_power2";
                                      par +s+ "_derivative1_power2"]) params
  /\ _add_suffix params "derivatives"
    = params ++ map (fun par => par +s+ "_derivative1") params
  /\ _add_suffix params "power2"
    = params ++ map (fun par => par +s+ "_power2") params.
Proof.
  rewrite !add_suffix_eq. split; [reflexivity|].
  split; f_equal; induction params as [|par params IH]; simpl;
    try reflexivity; now rewrite <- IH.
Qed.

(** C2 (as stated) fails: on two bases the "full" expansion is not grouped
    by suffix. *)
Lemma add_suffix_full_not_grouped :
  _add_suffix ["csf"; "white_matter"] "full"
    = ["csf"; "white_matter";
       "csf_derivative1"; "csf_power2"; "csf_derivative1_power2";
       "white_matter_derivative1"; "white_matter_power2";
       "white_matter_derivative1_power2"]
  /\ grouped_by_suffix ["csf"; "white_matter"]
    = ["csf"; "white_matter";
       "csf_derivative1"; "white_matter_derivative1";
       "csf_power2"; "white_matter_power2";
       "csf_derivative1_power2"; "white_matter_derivative1_power2"]
  /\ _add_suffix ["csf"; "white_matter"] "full"
     <> grouped_by_suffix ["csf"; "white_matter"].
Proof.
  repeat split. vm_compute. discriminate.
Qed.

(** C3: the expander is a total function; its output starts with the base
    names, unchanged and in order, and has [|B|] names for "basic" and any
    other unrecognised mode, [2|B|] for "derivatives" and "power2", and
    [4|B|] for "full". *)
Theorem add_suffix_prefix_length (params : list string) (model : string) :
  (exists extra, _add_suffix params model = params ++ extra)
  /\ firstn (length params) (_add_suffix params model) = params
  /\ length (_add_suffix params model)
     = (if model =? "full" then 4
        else if ((model =? "derivatives") || (model =? "power2"))%bool then 2
        else 1) * length params.
Proof.
  rewrite add_suffix_eq. split; [|split].
  - eexists. reflexivity.
  - rewrite firstn_app, Nat.sub_diag, firstn_all. simpl. apply app_nil_r.
  - rewrite length_app, flat_map_suffixed_length.
    fold (names_per_base model).
    pose proof (names_per_base_pos model). nia.
Qed.

(** *** Computations only append to the log *)

Lemma appends_ret {A} (a : A) : appends (ret a).
Proof. intros w. unfold ret. simpl. now rewrite app_nil_r. Qed.

Lemma appends_raise {A} (e : exception) : appends (@raise A e).
Proof. intros w. unfold raise. simpl. now rewrite app_nil_r. Qed.

Lemma appends_lift {A} (r : result A) : appends (lift r).
Proof. intros w. unfold lift. simpl. now rewrite app_nil_r. Qed.

Lemma appends_warn (msg : string) : appends (warn msg).
Proof. intros w. reflexivity. Qed.

Lemma appends_bind {A B} (m : M A) (k : A -> M B) :
  appends m -> (forall a, appends (k a)) -> appends (bind m k).
Proof.
  intros Hm Hk w. unfold bind.
  rewrite (Hm w). destruct (m []) as [[a|e] s1]; simpl.
  - rewrite (Hk a (w ++ s1)), (Hk a s1). simpl. now rewrite app_assoc.
  - reflexivity.
Qed.

Lemma appends_for_fold {A S} (xs : list A) (body : S -> A -> M S) :
  (forall acc x, appends (body acc x)) ->
  forall acc, appends (for_fold xs acc body).
Proof.
  intros Hbody. induction xs as [|x xs IH]; intros acc; simpl.
  - apply appends_ret.
  - apply appends_bind; [apply Hbody | intros acc'; apply IH].
Qed.

Lemma appends_for_each {A} (xs : list A) (body : A -> M unit) :
  (forall x, appends (body x)) -> appends (for_each xs body).
Proof.
  intros Hbody. induction xs as [|x xs IH]; simpl.
  - apply appends_ret.
  - apply appends_bind; [apply Hbody | intros _; apply IH].
Qed.

Lemma appends_value {A} (m : M A) (w : list string) :
  appends m -> value_of m w = value_of m [].
Proof. intros H. unfold value_of. now rewrite (H w). Qed.

Ltac appends_tac :=
  repeat first
    [ apply appends_ret | apply appends_raise | apply appends_lift
    | apply appends_warn
    | apply appends_bind; [|intros ?]
    | apply appends_for_fold; intros ? ?
    | apply appends_for_each; intros ?
    | match goal with
      | |- appends (if ?b then _ else _) => destruct b
      | |- appends (match ?x with _ => _ end) => destruct x
      | |- appends (let '(_, _) := ?x in _) => destruct x
      end ].

(** *** Membership and substrings *)

Lemma mem_In (par : string) (names : list string) :
  mem par names = true <-> In par names.
Proof.
  unfold mem. rewrite existsb_exists. split.
  - intros [x [Hin Heq]]. apply String.eqb_eq in Heq. now subst.
  - intros Hin. exists par. split; [assumption | apply String.eqb_refl].
Qed.

Lemma mem_not_In (par : string) (names : list string) :
  mem par names = false <-> ~ In par names.
Proof.
  rewrite <- mem_In. destruct (mem par names); split; intros H;
    try reflexivity; try discriminate; congruence.
Qed.

Lemma prefix_spec (key col : string) :
  String.prefix key col = true <-> exists after, col = key +s+ after.
Proof.
  revert col. induction key as [|k key IH]; intros [|c col]; simpl.
  - split; [intros _; now exists EmptyString | reflexivity].
  - split; [intros _; now exists (String c col) | reflexivity].
  - split; [discriminate | intros [after H]; discriminate H].
  - destruct (ascii_dec k c) as [->|Hne].
    + rewrite IH. split; intros [after H]; exists after.
      * now rewrite H.
      * now inversion H.
    + split; [discriminate | intros [after H]; inversion H; congruence].
Qed.

Lemma str_in_nil (key : string) :
  str_in key EmptyString = String.prefix key EmptyString.
Proof. unfold str_in. apply orb_false_r. Qed.

Lemma str_in_cons (key : string) (c : ascii) (col : string) :
  str_in key (String c col)
  = (String.prefix key (String c col) || str_in key col)%bool.
Proof. reflexivity. Qed.

Lemma str_in_spec (key col : string) :
  str_in key col = true <-> substring_of key col.
Proof.
  unfold substring_of. induction col as [|c col IH].
  - rewrite str_in_nil, prefix_spec. split.
    + intros [after H]. exists EmptyString, after. exact H.
    + intros [before [after H]]. destruct before; simpl in H.
      * now exists after.
      * discriminate H.
  - rewrite str_in_cons, orb_true_iff, IH, prefix_spec. split.
    + intros [[after H] | [before [after H]]].
      * exists EmptyString, after. exact H.
      * exists (String c before), after. simpl. now rewrite H.
    + intros [before [after H]]. destruct before as [|b before]; simpl in H.
      * left. now exists after.
      * right. exists before, after. now inversion H.
Qed.

(** *** The column validator *)

Section Validator.

Context {value : Type}.
Implicit Types confounds_raw wider : DataFrame value.

Lemma check_params_find confounds_raw (params : list string) (w : list string) :
  _check_params confounds_raw params w
  = (match find (absent confounds_raw) params with
     | Some par => Raise (MissingColumn par)
     | None => Ok tt
     end, w).
Proof.
  unfold _check_params. induction params as [|par params IH]; simpl.
  - reflexivity.
  - unfold absent at 1. unfold bind at 1.
    destruct (negb (mem par (columns confounds_raw))); simpl.
    + reflexivity.
    + exact IH.
Qed.

Lemma absent_true confounds_raw (par : string) :
  absent confounds_raw par = true <-> ~ In par (columns confounds_raw).
Proof. unfold absent. rewrite negb_true_iff. apply mem_not_In. Qed.

Lemma check_params_ok confounds_raw (params : list string) (w : list string) :
  value_of (_check_params confounds_raw params) w = Ok tt
  <-> (forall par, In par params -> In par (columns confounds_raw)).
Proof.
  unfold value_of. rewrite check_params_find. simpl.
  destruct (find (absent confounds_raw) params) as [par|] eqn:Hfind.
  - apply find_some in Hfind. destruct Hfind as [Hin Habs].
    apply absent_true in Habs. split; [discriminate|].
    intros Hall. exfalso. apply Habs, Hall, Hin.
  - split; [|reflexivity]. intros _ par Hin.
    pose proof (find_none _ _ Hfind par Hin) as Hpres.
    unfold absent in Hpres. apply negb_false_iff in Hpres.
    now apply mem_In.
Qed.

Lemma check_params_raise confounds_raw (params : list string) (w : list string)
    (e : exception) :
  value_of (_check_params confounds_raw params) w = Raise e ->
  exists par, e = MissingColumn par /\ In par params
              /\ ~ In par (columns confounds_raw).
Proof.
  unfold value_of. rewrite check_params_find. simpl.
  destruct (find (absent confounds_raw) params) as [par|] eqn:Hfind.
  - intros [= <-]. apply find_some in Hfind. destruct Hfind as [Hin Habs].
    exists par. repeat split; [assumption | now apply absent_true].
  - discriminate.
Qed.

(** C4: the validator raises, with a [MissingColumn] error, exactly when
    a required name is absent from the columns of the table; when every
    required name is present it returns [None], whatever other columns the
    table has; in both cases it leaves the log of warnings as it found it,
    and the table is only read. *)
Theorem check_params_iff confounds_raw (params : list string) (w : list string) :
  ((exists e, value_of (_check_params confounds_raw params) w = Raise e)
   <-> (exists par, In par params /\ ~ In par (columns confounds_raw)))
  /\ (forall e, value_of (_check_params confounds_raw params) w = Raise e ->
      exists par, e = MissingColumn par /\ In par params
                  /\ ~ In par (columns confounds_raw))
  /\ (value_of (_check_params confounds_raw params) w = Ok tt
      <-> (forall par, In par params -> In par (columns confounds_raw)))
  /\ warnings_of (_check_params confounds_raw params) w = w
  /\ (forall wider : DataFrame value,
        incl (columns confounds_raw) (columns wider) ->
        value_of (_check_params confounds_raw params) w = Ok tt ->
        value_of (_check_params wider params) w = Ok tt).
Proof.
  split; [|split; [|split; [|split]]].
  - split.
    + intros [e He]. apply check_params_raise in He.
      destruct He as [par [_ H]]. now exists par.
    + intros [par [Hin Habs]].
      destruct (value_of (_check_params confounds_raw params) w)
        as [[]|e] eqn:Hv.
      * exfalso. apply Habs. now apply (proj1 (check_params_ok confounds_raw params w) Hv).
      * now exists e.
  - apply check_params_raise.
  - apply check_params_ok.
  - unfold warnings_of. now rewrite check_params_find.
  - intros wider Hincl Hok. unfold value_of in *.
    rewrite check_params_find in Hok. rewrite check_params_find.
    simpl in *.
    destruct (find (absent wider) params) as [par|] eqn:Hfind;
      [|reflexivity].
    apply find_some in Hfind. destruct Hfind as [Hin Habs].
    unfold absent in Habs. apply negb_true_iff, mem_not_In in Habs.
    destruct (find (absent confounds_raw) params) as [par'|] eqn:Hfind';
      [discriminate|].
    pose proof (find_none _ _ Hfind' par Hin) as Hpres.
    unfold absent in Hpres. apply negb_false_iff, mem_In in Hpres.
    exfalso. apply Habs, Hincl, Hpres.
Qed.

End Validator.

(** *** The keyword finder *)

Section Finder.

Context {value : Type}.
Implicit Types confounds_raw : DataFrame value.

Lemma find_confounds_scan_fold (key : string) (cols acc : list string)
    (found : bool) :
  fold_left
    (fun (st : list string * bool) col =>
       if str_in key col then (fst st ++ [col], true) else st)
    cols (acc, found)
  = (acc ++ filter (str_in key) cols,
     (found || existsb (str_in key) cols)%bool).
Proof.
  revert acc found. induction cols as [|col cols IH]; intros acc found; simpl.
  - now rewrite app_nil_r, orb_false_r.
  - destruct (str_in key col); simpl; rewrite IH.
    + now rewrite <- app_assoc, orb_true_r.
    + reflexivity.
Qed.

Lemma find_confounds_scan_eq (key : string) (cols acc : list string) :
  _find_confounds_scan key cols acc
  = (acc ++ filter (str_in key) cols, existsb (str_in key) cols).
Proof. unfold _find_confounds_scan. apply find_confounds_scan_fold. Qed.

Lemma find_confounds_find confounds_raw (keywords : list string)
    (w : list string) :
  _find_confounds confounds_raw keywords w
  = (match find (unmatched confounds_raw) keywords with
     | Some key => Raise (NoMatchingColumn key)
     | None => Ok (flat_map (fun key => filter (str_in key)
                                               (columns confounds_raw))
                            keywords)
     end, w).
Proof.
  unfold _find_confounds.
  change (flat_map (fun key => filter (str_in key) (columns confounds_raw))
                   keywords)
    with ([] ++ flat_map (fun key => filter (str_in key)
                                            (columns confounds_raw)) keywords).
  generalize (@nil string) as acc.
  induction keywords as [|key keywords IH]; intros acc; simpl.
  - now rewrite app_nil_r.
  - unfold bind at 1. rewrite find_confounds_scan_eq. unfold unmatched at 1.
    destruct (existsb (str_in key) (columns confounds_raw)); simpl.
    + rewrite IH, app_assoc. reflexivity.
    + reflexivity.
Qed.

Lemma unmatched_true confounds_raw (key : string) :
  unmatched confounds_raw key = true
  <-> (forall col, In col (columns confounds_raw) -> ~ substring_of key col).
Proof.
  unfold unmatched. rewrite negb_true_iff. split.
  - intros Hnone col Hin Hsub. apply str_in_spec in Hsub.
    assert (existsb (str_in key) (columns confounds_raw) = true) as Hex
      by (apply existsb_exists; now exists col).
    congruence.
  - intros Hall.
    destruct (existsb (str_in key) (columns confounds_raw)) eqn:Hex;
      [|reflexivity].
    apply existsb_exists in Hex. destruct Hex as [col [Hin Hsub]].
    exfalso. apply (Hall col Hin). now apply str_in_spec.
Qed.

Lemma unmatched_false confounds_raw (key : string) :
  unmatched confounds_raw key = false
  <-> (exists col, In col (columns confounds_raw) /\ substring_of key col).
Proof.
  unfold unmatched. rewrite negb_false_iff, existsb_exists.
  split; intros [col [Hin Hsub]]; exists col; split; try assumption;
    now apply str_in_spec.
Qed.

Lemma find_confounds_raise confounds_raw (keywords : list string)
    (w : list string) (e : exception) :
  value_of (_find_confounds confounds_raw keywords) w = Raise e ->
  exists key, e = NoMatchingColumn key /\ In key keywords
    /\ (forall col, In col (columns confounds_raw) -> ~ substring_of key col).
Proof.
  unfold value_of. rewrite find_confounds_find. simpl.
  destruct (find (unmatched confounds_raw) keywords) as [key|] eqn:Hfind.
  - intros [= <-]. apply find_some in Hfind. destruct Hfind as [Hin Hun].
    exists key. repeat split; [assumption | now apply unmatched_true].
  - discriminate.
Qed.

(** C5: the finder raises, with a [NoMatchingColumn] error, exactly when
    some keyword is a substring of no column name; otherwise it returns,
    keyword after keyword in input order, the column names that contain the
    keyword as a substring, in the column order of the table. *)
Theorem find_confounds_iff confounds_raw (keywords : list string)
    (w : list string) :
  ((exists e, value_of (_find_confounds confounds_raw keywords) w = Raise e)
   <-> (exists key, In key keywords /\
          forall col, In col (columns confounds_raw) -> ~ substring_of key col))
  /\ (forall e, value_of (_find_confounds confounds_raw keywords) w = Raise e ->
      exists key, e = NoMatchingColumn key /\ In key keywords /\
        forall col, In col (columns confounds_raw) -> ~ substring_of key col)
  /\ ((forall key, In key keywords ->
         exists col, In col (columns confounds_raw) /\ substring_of key col)
      <-> value_of (_find_confounds confounds_raw keywords) w
          = Ok (flat_map (fun key => filter (str_in key) (columns confounds_raw))
                         keywords))
  /\ (forall key col,
        In col (filter (str_in key) (columns confounds_raw))
        <-> In col (columns confounds_raw) /\ substring_of key col)
  /\ warnings_of (_find_confounds confounds_raw keywords) w = w.
Proof.
  split; [|split; [|split; [|split]]].
  - split.
    + intros [e He]. apply find_confounds_raise in He.
      destruct He as [key [_ H]]. now exists key.
    + intros [key [Hin Hnone]]. unfold value_of.
      rewrite find_confounds_find. simpl.
      destruct (find (unmatched confounds_raw) keywords) as [key'|] eqn:Hfind.
      * now eexists.
      * pose proof (find_none _ _ Hfind key Hin) as Hm.
        apply unmatched_false in Hm. destruct Hm as [col [Hc Hs]].
        exfalso. exact (Hnone col Hc Hs).
  - apply find_confounds_raise.
  - unfold value_of. rewrite find_confounds_find. simpl. split.
    + intros Hall.
      destruct (find (unmatched confounds_raw) keywords) as [key|] eqn:Hfind;
        [|reflexivity].
      apply find_some in Hfind. destruct Hfind as [Hin Hun].
      destruct (Hall key Hin) as [col [Hc Hs]].
      exfalso. exact (proj1 (unmatched_true _ _) Hun col Hc Hs).
    + destruct (find (unmatched confounds_raw) keywords) as [key|] eqn:Hfind;
        [discriminate|].
      intros _ key Hin. apply unmatched_false.
      exact (find_none _ _ Hfind key Hin).
  - intros key col. rewrite filter_In, str_in_spec. reflexivity.
  - unfold warnings_of. now rewrite find_confounds_find.
Qed.

End Finder.

(** *** Zero-padded indices *)

Lemma str_two_digits (p : positive) :
  (10 <= Z.pos p)%Z ->
  exists c1 c2 rest,
    str (Z.pos p) = String c1 (String c2 rest)
    /\ Ascii.eqb c1 "+" = false /\ Ascii.eqb c1 "-" = false.
Proof.
  intros Hp. unfold str. simpl Z.to_int.
  pose proof (DecimalPos.Unsigned.of_to p) as Hof.
  pose proof (DecimalPos.Unsigned.to_uint_nonnil p) as Hnil.
  unfold NilZero.string_of_int, NilZero.string_of_uint.
  destruct (Pos.to_uint p) as [|d|d|d|d|d|d|d|d|d|d];
    [congruence|..];
    (destruct d;
     [ exfalso; vm_compute in Hof;
       first [ discriminate Hof | (injection Hof as Hof; subst p; lia) ]
     | simpl; do 3 eexists; repeat split; reflexivity .. ]).
Qed.

Lemma zfill_str (nn : Z) :
  (0 <= nn)%Z -> zfill 2 (str nn) = zero_padded2 nn.
Proof.
  intros Hnn. unfold zero_padded2.
  destruct (nn <? 10)%Z eqn:Hlt.
  - apply Z.ltb_lt in Hlt.
    assert (nn = 0 \/ nn = 1 \/ nn = 2 \/ nn = 3 \/ nn = 4 \/ nn = 5
            \/ nn = 6 \/ nn = 7 \/ nn = 8 \/ nn = 9)%Z as Hcases by lia.
    repeat (destruct Hcases as [-> | Hcases]; [reflexivity|]).
    subst nn. reflexivity.
  - apply Z.ltb_ge in Hlt. destruct nn as [|p|p]; try lia.
    destruct (str_two_digits p Hlt) as [c1 [c2 [rest [Hs [Hplus Hminus]]]]].
    rewrite Hs. unfold zfill. rewrite Hplus, Hminus. reflexivity.
Qed.

Lemma range_nonneg (n nn : Z) : In nn (range n) -> (0 <= nn)%Z.
Proof.
  unfold range. rewrite in_map_iff. intros [i [<- _]]. lia.
Qed.

(** *** The indexed component selector *)

Section Selector.

Context {value : Type}.
Implicit Types confounds_raw : DataFrame value.

Lemma label_compcor_fold confounds_raw (names : string -> Z -> string)
    (indices : list Z) (acc w : list string) :
  for_fold indices acc (fun compcor_cols nn =>
    if negb (mem (names "" nn) (columns confounds_raw))
    then warn (MissingComponent (names "" nn)) ;;; ret compcor_cols
    else ret (compcor_cols ++ [names "" nn])) w
  = (Ok (acc ++ filter (fun c => mem c (columns confounds_raw))
                       (map (names "") indices)),
     w ++ map MissingComponent
              (filter (absent confounds_raw) (map (names "") indices))).
Proof.
  revert acc w. induction indices as [|nn indices IH]; intros acc w; simpl.
  - now rewrite !app_nil_r.
  - unfold bind at 1. unfold absent at 1.
    destruct (mem (names "" nn) (columns confounds_raw)); simpl.
    + rewrite IH, <- app_assoc. reflexivity.
    + rewrite IH, <- app_assoc. reflexivity.
Qed.

Lemma label_compcor_eq confounds_raw (compcor_suffix : string) (n_compcor : Z)
    (w : list string) :
  _label_compcor confounds_raw compcor_suffix n_compcor w
  = (Ok (filter (fun c => mem c (columns confounds_raw))
                (compcor_candidates compcor_suffix n_compcor)),
     w ++ map MissingComponent
              (filter (absent confounds_raw)
                      (compcor_candidates compcor_suffix n_compcor))).
Proof.
  unfold _label_compcor, compcor_candidates.
  rewrite (map_ext_in
             (fun nn => compcor_suffix +s+ "_comp_cor_" +s+ zero_padded2 nn)
             (fun nn => compcor_suffix +s+ "_comp_cor_" +s+ zfill 2 (str nn)))
    by (intros nn Hin; rewrite zfill_str;
        [reflexivity | exact (range_nonneg _ _ Hin)]).
  exact (label_compcor_fold confounds_raw
           (fun _ nn => compcor_suffix +s+ "_comp_cor_" +s+ zfill 2 (str nn))
           (range (n_compcor + 1)) [] w).
Qed.

(** C6: for a bound [N >= 0] (and, vacuously, below) the selector
    considers exactly the [N + 1] candidates [<prefix>_comp_cor_<NN>], [NN = 0 .. N] zero-padded to two
    digits; it returns the candidates that are columns of the table, in
    index order, and adds one warning to the log for each candidate that is
    not, without failing. *)
Theorem label_compcor_candidates confounds_raw (prefix : string) (N : Z)
    (w : list string) :
  let candidates := compcor_candidates prefix N in
  let found := filter (fun c => mem c (columns confounds_raw)) candidates in
  let missing := filter (absent confounds_raw) candidates in
  _label_compcor confounds_raw prefix N w
    = (Ok found, w ++ map MissingComponent missing)
  /\ length candidates = Z.to_nat (N + 1)
  /\ length found + length missing = Z.to_nat (N + 1)
  /\ (forall c, In c found <-> In c candidates /\ In c (columns confounds_raw))
  /\ (forall c, In c missing
                <-> In c candidates /\ ~ In c (columns confounds_raw)).
Proof.
  intros candidates found missing.
  assert (length candidates = Z.to_nat (N + 1)) as Hlen.
  { unfold candidates, compcor_candidates, range.
    now rewrite !length_map, length_seq. }
  split; [apply label_compcor_eq|].
  split; [exact Hlen|]. split; [|split].
  - rewrite <- Hlen. unfold found, missing, absent.
    apply filter_length.
  - intros c. unfold found. rewrite filter_In, mem_In. reflexivity.
  - intros c. unfold missing. rewrite filter_In, absent_true. reflexivity.
Qed.

End Selector.

(** *** Selecting columns *)

Section Selection.

Context {value : Type}.
Implicit Types confounds_raw : DataFrame value.

Lemma filter_absent_nil confounds_raw (names : list string) :
  find (absent confounds_raw) names = None ->
  filter (fun par => negb (mem par (columns confounds_raw))) names = [].
Proof.
  induction names as [|par names IH]; simpl; [reflexivity|].
  unfold absent at 1.
  destruct (negb (mem par (columns confounds_raw))); [discriminate|].
  exact IH.
Qed.

Lemma getitem_present confounds_raw (names : list string) (w : list string) :
  find (absent confounds_raw) names = None ->
  getitem confounds_raw names w = (Ok (selection confounds_raw names), w).
Proof.
  intros Hfind. unfold getitem. now rewrite filter_absent_nil.
Qed.

Lemma check_getitem confounds_raw (names : list string) (w : list string) :
  (_check_params confounds_raw names ;;; getitem confounds_raw names) w
  = (match find (absent confounds_raw) names with
     | Some par => Raise (MissingColumn par)
     | None => Ok (selection confounds_raw names)
     end, w).
Proof.
  unfold bind. rewrite check_params_find.
  destruct (find (absent confounds_raw) names) eqn:Hfind; [reflexivity|].
  now apply getitem_present.
Qed.

Lemma find_absent_none confounds_raw (names : list string) :
  find (absent confounds_raw) names = None
  <-> (forall par, In par names -> In par (columns confounds_raw)).
Proof.
  rewrite <- (check_params_ok confounds_raw names []).
  unfold value_of. rewrite check_params_find. simpl.
  destruct (find (absent confounds_raw) names); split;
    intros H; try reflexivity; discriminate H.
Qed.

Lemma filter_name_unique (l : list (string * list (option value)))
    (par : string) :
  NoDup (map fst l) -> In par (map fst l) ->
  map fst (filter (fun c => String.eqb (fst c) par) l) = [par].
Proof.
  induction l as [|c l IH]; simpl; intros Hnd Hin; [contradiction|].
  inversion Hnd as [|x xs Hnotin Hnd']; subst.
  destruct (String.eqb (fst c) par) eqn:Heq.
  - apply String.eqb_eq in Heq. subst par. simpl. f_equal.
    assert (filter (fun c0 => String.eqb (fst c0) (fst c)) l = []) as ->;
      [|reflexivity].
    clear -Hnotin. induction l as [|d l IH]; simpl; [reflexivity|].
    destruct (String.eqb (fst d) (fst c)) eqn:Hd.
    + apply String.eqb_eq in Hd. exfalso. apply Hnotin. left. exact Hd.
    + apply IH. intros H. apply Hnotin. now right.
  - apply String.eqb_neq in Heq. destruct Hin as [Hin|Hin]; [congruence|].
    now apply IH.
Qed.

Lemma selection_columns confounds_raw (names : list string) :
  NoDup (columns confounds_raw) ->
  (forall par, In par names -> In par (columns confounds_raw)) ->
  columns (selection confounds_raw names) = names.
Proof.
  intros Hnd. unfold selection. unfold columns at 2. simpl.
  induction names as [|par names IH]; intros Hall; simpl; [reflexivity|].
  rewrite map_app, filter_name_unique, IH; simpl; auto.
  - intros p Hp. apply Hall. now right.
  - apply Hall. now left.
Qed.

Lemma selection_nrows confounds_raw (names : list string) :
  nrows (selection confounds_raw names) = nrows confounds_raw.
Proof. reflexivity. Qed.

End Selection.

(** *** The constructor *)

Lemma atom_in_supported (conf : atom) :
  atom_in conf all_confounds = true <-> supported conf.
Proof.
  unfold atom_in, supported. rewrite existsb_exists. split.
  - intros [name [Hin Heq]]. exists name. split; [assumption|].
    destruct conf; simpl in Heq; try discriminate.
    apply String.eqb_eq in Heq. now subst.
  - intros [name [Hin ->]]. exists name. split; [assumption|].
    simpl. apply String.eqb_refl.
Qed.

Lemma sanitize_strategy_list (items : list atom) (w : list string) :
  _sanitize_strategy (ListOf items) w
  = (match find (fun conf => negb (atom_in conf all_confounds)) items with
     | Some conf => Raise (InvalidStrategy_unsupported (format conf))
     | None => Ok items
     end, w).
Proof.
  unfold _sanitize_strategy.
  assert (forall l,
    for_each l (fun conf =>
      if negb (atom_in conf all_confounds)
      then raise (InvalidStrategy_unsupported (format conf))
      else ret tt) w
    = (match find (fun conf => negb (atom_in conf all_confounds)) l with
       | Some conf => Raise (InvalidStrategy_unsupported (format conf))
       | None => Ok tt
       end, w)) as Hloop.
  { induction l as [|conf l IH]; cbn [for_each find]; [reflexivity|].
    unfold bind at 1.
    destruct (negb (atom_in conf all_confounds)); [reflexivity | exact IH]. }
  unfold bind. rewrite Hloop.
  destruct (find _ items); reflexivity.
Qed.

Section Constructor.

Context {value : Type}.
Variables (motion : string) (n_motion : Q)
          (wm_csf global_signal compcor : string) (n_compcor : Z).

(** C1 (as amended): the constructor raises [InvalidStrategy] exactly when
    the strategy is not a list or has a member outside the vocabulary; for
    every list of vocabulary names, the empty list included, it returns the
    instance.  It takes no table and reads none. *)
Theorem init_raises_iff (strategy : strategy_arg) (w : list string) :
  let construct :=
    @__init__ value strategy motion n_motion wm_csf global_signal compcor
              n_compcor in
  ((exists e, value_of construct w = Raise e)
   <-> ((forall items, strategy <> ListOf items)
        \/ exists items conf,
             strategy = ListOf items /\ In conf items /\ ~ supported conf))
  /\ (forall e, value_of construct w = Raise e -> InvalidStrategy e)
  /\ (forall items,
        strategy = ListOf items ->
        (forall conf, In conf items -> supported conf) ->
        value_of construct w
        = Ok (@Build_Confounds value items motion n_motion wm_csf
                global_signal compcor n_compcor None))
  /\ warnings_of construct w = w.
Proof.
  intros construct. unfold construct, value_of, warnings_of, __init__, bind.
  destruct strategy as [items|items|a].
  - rewrite sanitize_strategy_list.
    destruct (find (fun conf => negb (atom_in conf all_confounds)) items)
      as [conf|] eqn:Hfind; simpl.
    + apply find_some in Hfind. destruct Hfind as [Hin Hbad].
      assert (~ supported conf) as Hns.
      { rewrite <- atom_in_supported. apply negb_true_iff in Hbad.
        congruence. }
      repeat split.
      * intros _. right. now exists items, conf.
      * intros _. now eexists.
      * intros e [= <-]. right. now exists conf.
      * intros items' [= <-] Hall. exfalso. apply Hns, Hall, Hin.
    + repeat split.
      * intros [e He]. discriminate He.
      * intros [Hnot | [items' [conf [[= <-] [Hin Hns]]]]].
        -- exfalso. now apply (Hnot items).
        -- exfalso. apply Hns. apply atom_in_supported.
           pose proof (find_none _ _ Hfind conf Hin) as H.
           now apply negb_false_iff in H.
      * intros e He. discriminate He.
      * intros items' [= <-] _. reflexivity.
  - simpl. repeat split.
    + intros _. left. intros items' H. discriminate H.
    + intros _. now eexists.
    + intros e [= <-]. now left.
    + intros items' H. discriminate H.
  - simpl. repeat split.
    + intros _. left. intros items' H. discriminate H.
    + intros _. now eexists.
    + intros e [= <-]. now left.
    + intros items' H. discriminate H.
Qed.

End Constructor.

(** *** The motion loader *)


Lemma map_fst_combine {A B} (l : list A) (l' : list B) :
  length l = length l' -> map fst (combine l l') = l.
Proof.
  revert l'. induction l as [|a l IH]; intros [|b l'] Hlen; simpl in *;
    try reflexivity; try discriminate.
  f_equal. apply IH. now injection Hlen.
Qed.

Lemma motion_pca_names_range (k : Z) :
  map (fun col => "motion_pca_" +s+ str (col + 1))
      (range (Z.of_nat (Z.to_nat k)))
  = motion_pca_names k.
Proof.
  unfold range, motion_pca_names.
  rewrite Nat2Z.id, <- seq_shift, !map_map.
  apply map_ext. intros i. do 2 f_equal. lia.
Qed.

Section Motion.

Context {value : Type} {ext : External value}.
Implicit Types confounds_raw df : DataFrame value.




End Motion.

(** *** Every function of the module only appends to the log *)

Section Appends.

Context {value : Type} {ext : External value}.
Implicit Types confounds_raw : DataFrame value.

Lemma appends_check_params confounds_raw params :
  appends (_check_params confounds_raw params).
Proof. unfold _check_params. appends_tac. Qed.

Lemma appends_getitem confounds_raw names :
  appends (getitem confounds_raw names).
Proof. unfold getitem. appends_tac. Qed.

Lemma appends_find_confounds confounds_raw keywords :
  appends (_find_confounds confounds_raw keywords).
Proof. unfold _find_confounds. appends_tac. Qed.

Lemma appends_label_compcor confounds_raw compcor_suffix n_compcor :
  appends (_label_compcor confounds_raw compcor_suffix n_compcor).
Proof. unfold _label_compcor. appends_tac. Qed.

Lemma appends_load_global confounds_raw global_signal :
  appends (_load_global confounds_raw global_signal).
Proof.
  unfold _load_global.
  apply appends_bind; [apply appends_check_params|].
  intros _. apply appends_getitem.
Qed.

Lemma appends_load_wm_csf confounds_raw wm_csf :
  appends (_load_wm_csf confounds_raw wm_csf).
Proof.
  unfold _load_wm_csf.
  apply appends_bind; [apply appends_check_params|].
  intros _. apply appends_getitem.
Qed.

Lemma appends_load_high_pass confounds_raw :
  appends (_load_high_pass confounds_raw).
Proof.
  unfold _load_high_pass.
  apply appends_bind; [apply appends_find_confounds|].
  intros names. apply appends_getitem.
Qed.

Lemma appends_load_compcor confounds_raw compcor n_compcor :
  appends (_load_compcor confounds_raw compcor n_compcor).
Proof.
  unfold _load_compcor.
  repeat first
    [ apply appends_label_compcor | apply appends_check_params
    | apply appends_getitem | apply appends_ret | apply appends_raise
    | apply appends_bind; [|intros ?]
    | match goal with
      | |- appends (if ?b then _ else _) => destruct b
      | |- appends (match ?x with _ => _ end) => destruct x
      end ].
Qed.

Lemma appends_pca_motion confounds_motion n_components :
  appends (_pca_motion confounds_motion n_components).
Proof. unfold _pca_motion. appends_tac. Qed.

Lemma appends_load_motion confounds_raw motion n_motion :
  appends (_load_motion confounds_raw motion n_motion).
Proof.
  unfold _load_motion.
  apply appends_bind; [apply appends_check_params|]. intros _.
  apply appends_bind; [apply appends_getitem|]. intros df.
  destruct (Qlt_le_dec 0 n_motion);
    [apply appends_pca_motion | apply appends_ret].
Qed.

Lemma appends_confounds2df src : appends (_confounds2df src).
Proof. unfold _confounds2df. appends_tac. Qed.

Lemma appends_category_loaders self confounds_raw :
  Forall (fun loader => appends (snd loader))
         (category_loaders self confounds_raw).
Proof.
  unfold category_loaders. repeat constructor; simpl.
  - apply appends_load_motion.
  - apply appends_load_high_pass.
  - apply appends_load_wm_csf.
  - apply appends_load_global.
  - apply appends_load_compcor.
Qed.

Lemma appends_active_loaders self confounds_raw :
  Forall (fun loader => appends (snd loader))
         (active_loaders self confounds_raw).
Proof.
  unfold active_loaders. rewrite Forall_forall. intros loader Hin.
  apply filter_In in Hin. destruct Hin as [Hin _].
  pose proof (appends_category_loaders self confounds_raw) as Hall.
  rewrite Forall_forall in Hall. now apply Hall.
Qed.

End Appends.

(** *** The order of the categories *)

Section Orchestrator.

Context {value : Type} {ext : External value}.
Implicit Types confounds_raw out df : DataFrame value.
Implicit Types self : Confounds value.

Ltac step_loaders :=
  repeat match goal with
  | |- context [match ?m ?w with pair _ _ => _ end] =>
      destruct (m w) as [[?|?] ?]; cbn beta iota
  end.

Lemma load_single_fold self confounds_raw (w : list string) :
  _load_single self (Frame confounds_raw) w
  = for_fold (active_loaders self confounds_raw) empty_frame concat_step w.
Proof.
  unfold _load_single, active_loaders, category_loaders, _confounds2df.
  cbn [filter fst].
  destruct (in_atoms "motion" (strategy self)),
           (in_atoms "high_pass" (strategy self)),
           (in_atoms "wm_csf" (strategy self)),
           (in_atoms "global" (strategy self)),
           (in_atoms "compcor" (strategy self));
    cbn [for_fold]; unfold concat_step, bind, ret; cbn [snd];
    step_loaders; reflexivity.
Qed.

Lemma fold_concat_value (loaders : list (string * M (DataFrame value))) :
  Forall (fun loader => appends (snd loader)) loaders ->
  forall acc (w : list string) df,
    value_of (for_fold loaders acc concat_step) w = Ok df
    <-> exists outs, Forall2 loads loaders outs
                     /\ df = fold_left concat_axis1 outs acc.
Proof.
  induction 1 as [|loader loaders Happ _ IH]; intros acc w df.
  - unfold value_of. simpl. split.
    + intros [= <-]. exists []. split; [constructor | reflexivity].
    + intros [outs [Hall ->]]. inversion Hall. reflexivity.
  - unfold value_of. cbn [for_fold]. unfold bind at 1, concat_step at 1.
    unfold bind at 1. rewrite (Happ w).
    destruct (snd loader []) as [[out|e] w1] eqn:Hl; cbn [fst snd ret].
    + fold (value_of (for_fold loaders (concat_axis1 acc out) concat_step)
                     (w ++ w1)).
      rewrite IH. split.
      * intros [outs [Hall ->]]. exists (out :: outs). split; [|reflexivity].
        constructor; [|assumption]. unfold loads, value_of. now rewrite Hl.
      * intros [outs [Hall ->]].
        inversion Hall as [|l o ls os Hload Hrest]; subst.
        unfold loads, value_of in Hload. rewrite Hl in Hload.
        injection Hload as <-. now exists os.
    + split; [discriminate|].
      intros [outs [Hall _]].
      inversion Hall as [|l o ls os Hload Hrest]; subst.
      unfold loads, value_of in Hload. rewrite Hl in Hload. discriminate.
Qed.


Lemma columns_concat_axis1 (a b : DataFrame value) :
  columns (concat_axis1 a b) = columns a ++ columns b.
Proof.
  unfold columns, concat_axis1. simpl.
  now rewrite map_map, <- map_app.
Qed.

Lemma columns_fold_concat (outs : list (DataFrame value)) acc :
  columns (fold_left concat_axis1 outs acc)
  = columns acc ++ flat_map columns outs.
Proof.
  revert acc. induction outs as [|out outs IH]; intros acc; simpl.
  - now rewrite app_nil_r.
  - now rewrite IH, columns_concat_axis1, app_assoc.
Qed.

Lemma reindex_regular (n : nat) (col : list (option value)) :
  length col = n -> reindex n col = col.
Proof.
  intros <-. unfold reindex.
  now rewrite firstn_all, Nat.sub_diag, app_nil_r.
Qed.

Lemma map_reindex_regular (n : nat) (cols : list (string * list (option value))) :
  Forall (fun c => length (snd c) = n) cols ->
  map (fun c => (fst c, reindex n (snd c))) cols = cols.
Proof.
  induction 1 as [|[name col] cols Hlen _ IH]; simpl; [reflexivity|].
  simpl in Hlen. now rewrite IH, reindex_regular.
Qed.

Lemma fold_concat_regular (n : nat) (outs : list (DataFrame value)) acc :
  (acc = empty_frame \/ regular n acc) ->
  Forall (regular n) outs ->
  outs <> [] \/ regular n acc ->
  fold_left concat_axis1 outs acc
  = {| nrows := n; data := data acc ++ flat_map data outs |}.
Proof.
  intros Hacc Houts. revert acc Hacc.
  induction Houts as [|out outs [Hn Hcols] _ IH]; intros acc Hacc Hne.
  - destruct Hne as [Hne | [Hn Hcols]]; [congruence|].
    simpl. rewrite app_nil_r. destruct acc. simpl in Hn. now subst.
  - cbn [fold_left flat_map].
    assert (concat_axis1 acc out
            = {| nrows := n; data := data acc ++ data out |}) as Hstep.
    { unfold concat_axis1. destruct Hacc as [-> | [Hna Hca]].
      - simpl. rewrite Hn. f_equal. now apply map_reindex_regular.
      - rewrite Hna, Hn, Nat.max_id. f_equal.
        apply map_reindex_regular. apply Forall_app. now split. }
    rewrite Hstep, IH.
    + simpl. now rewrite app_assoc.
    + right. split; [reflexivity|]. simpl. apply Forall_app. split; [|assumption].
      destruct Hacc as [-> | [_ Hca]]; [constructor | assumption].
    + right. split; [reflexivity|]. simpl. apply Forall_app. split; [|assumption].
      destruct Hacc as [-> | [_ Hca]]; [constructor | assumption].
Qed.

Lemma in_atoms_permutation (category : string) (items items' : list atom) :
  Permutation items items' ->
  in_atoms category items = in_atoms category items'.
Proof.
  intros Hperm. unfold in_atoms.
  destruct (existsb (fun conf => atom_eq_str conf category) items') eqn:H'.
  - apply existsb_exists in H'. destruct H' as [conf [Hin Heq]].
    apply existsb_exists. exists conf. split; [|assumption].
    apply Permutation_in with (l := items'); [now symmetry | assumption].
  - destruct (existsb (fun conf => atom_eq_str conf category) items) eqn:H;
      [|reflexivity].
    apply existsb_exists in H. destruct H as [conf [Hin Heq]].
    assert (existsb (fun conf => atom_eq_str conf category) items' = true)
      as Hex.
    { apply existsb_exists. exists conf. split; [|assumption].
      now apply Permutation_in with (l := items). }
    congruence.
Qed.

(** C9: [_load_single] returns a table exactly when every loader of an
    active category returns one, and the table is then the column-wise
    concatenation of those outputs in the fixed order motion, high_pass,
    wm_csf, global, compcor: its column names are the names of the outputs,
    one output after the other, each in its own order, and so are the
    columns themselves when the outputs have the same rows.  Listing the
    categories of the strategy in another order changes nothing. *)
Theorem load_single_category_order self confounds_raw (w : list string) :
  (forall df,
     value_of (_load_single self (Frame confounds_raw)) w = Ok df
     <-> exists outs,
           Forall2 loads (active_loaders self confounds_raw) outs
           /\ df = concat_all outs)
  /\ map fst (category_loaders self confounds_raw) = all_confounds
  /\ (forall category,
        In category (map fst (active_loaders self confounds_raw))
        <-> In category all_confounds
            /\ in_atoms category (strategy self) = true)
  /\ (forall outs : list (DataFrame value),
        columns (concat_all outs) = flat_map columns outs)
  /\ (forall n (outs : list (DataFrame value)),
        outs <> [] -> Forall (regular n) outs ->
        concat_all outs = {| nrows := n; data := flat_map data outs |})
  /\ (forall items,
        Permutation (strategy self) items ->
        _load_single (with_strategy self items) (Frame confounds_raw) w
        = _load_single self (Frame confounds_raw) w).
Proof.
  split; [|split; [|split; [|split; [|split]]]].
  - intros df. unfold value_of. rewrite load_single_fold.
    apply fold_concat_value. apply appends_active_loaders.
  - reflexivity.
  - intros category. unfold active_loaders. rewrite in_map_iff. split.
    + intros [loader [<- Hin]]. apply filter_In in Hin.
      destruct Hin as [Hin Hact]. split; [|assumption].
      change all_confounds
        with (map fst (category_loaders self confounds_raw)).
      now apply in_map.
    + intros [Hin Hact].
      change all_confounds
        with (map fst (category_loaders self confounds_raw)) in Hin.
      apply in_map_iff in Hin. destruct Hin as [loader [<- Hin]].
      exists loader. split; [reflexivity|]. apply filter_In. now split.
  - intros outs. unfold concat_all. now rewrite columns_fold_concat.
  - intros n outs Hne Hall. unfold concat_all.
    rewrite (fold_concat_regular n); auto.
  - intros items Hperm. unfold _load_single. cbn [strategy with_strategy
      motion n_motion wm_csf global_signal compcor n_compcor].
    now rewrite !(in_atoms_permutation _ _ _ Hperm).
Qed.

End Orchestrator.

(** *** Loading one input or a list of inputs *)

Section Load.

Context {value : Type} {ext : External value}.
Implicit Types confounds_raw df : DataFrame value.
Implicit Types self : Confounds value.
Implicit Types src : confounds_source value.

Lemma appends_load_single self src : appends (_load_single self src).
Proof.
  unfold _load_single.
  repeat first
    [ apply appends_confounds2df | apply appends_load_motion
    | apply appends_load_high_pass | apply appends_load_wm_csf
    | apply appends_load_global | apply appends_load_compcor
    | apply appends_ret
    | apply appends_bind; [|intros ?]
    | match goal with
      | |- appends (if ?b then _ else _) => destruct b
      end ].
Qed.

Lemma load_one self src (w : list string) :
  load self (One src) w
  = (df <- _load_single self src ;;
     ret (set_confounds_ self (Table df), Table df)) w.
Proof.
  unfold load, _sanitize_confounds. cbn [for_fold]. unfold bind, ret.
  destruct (_load_single self src w) as [[df|e] w']; reflexivity.
Qed.

Lemma load_several self (srcs : list (confounds_source value))
    (w : list string) :
  load self (Several srcs) w
  = (dfs <- for_fold srcs [] (fun confounds_out file =>
               confounds <- _load_single self file ;;
               ret (confounds_out ++ [confounds])) ;;
     ret (set_confounds_ self (Tables dfs), Tables dfs)) w.
Proof.
  unfold load, _sanitize_confounds.
  set (collect := for_fold srcs [] _). unfold bind, ret.
  destruct (collect w) as [[dfs|e] w']; reflexivity.
Qed.

Lemma collect_value self (srcs : list (confounds_source value)) :
  forall (acc : list (DataFrame value)) (w : list string) dfs',
    value_of (for_fold srcs acc (fun confounds_out file =>
                confounds <- _load_single self file ;;
                ret (confounds_out ++ [confounds]))) w = Ok dfs'
    <-> exists dfs, Forall2 (loaded_from self) srcs dfs /\ dfs' = acc ++ dfs.
Proof.
  induction srcs as [|src srcs IH]; intros acc w dfs'.
  - unfold value_of. simpl. split.
    + intros [= <-]. exists []. split; [constructor | now rewrite app_nil_r].
    + intros [dfs [Hall ->]]. inversion Hall. now rewrite app_nil_r.
  - unfold value_of. cbn [for_fold]. unfold bind at 1. unfold bind at 1.
    rewrite (appends_load_single self src w).
    destruct (_load_single self src []) as [[df|e] w1] eqn:Hl;
      cbn [fst snd ret].
    + match goal with
      | |- fst (for_fold srcs ?a ?body ?w0) = _ <-> _ =>
          fold (value_of (for_fold srcs a body) w0)
      end.
      rewrite IH. split.
      * intros [dfs [Hall ->]]. exists (df :: dfs).
        split; [|now rewrite <- app_assoc].
        constructor; [|assumption].
        unfold loaded_from, value_of. now rewrite Hl.
      * intros [dfs [Hall ->]].
        inversion Hall as [|s d ss ds Hload Hrest]; subst.
        unfold loaded_from, value_of in Hload. rewrite Hl in Hload.
        injection Hload as <-. exists ds.
        split; [assumption | now rewrite <- app_assoc].
    + split; [discriminate|].
      intros [dfs [Hall _]].
      inversion Hall as [|s d ss ds Hload Hrest]; subst.
      unfold loaded_from, value_of in Hload. rewrite Hl in Hload.
      discriminate.
Qed.

(** C7: given one table or path, [load] returns the one table that
    [_load_single] returns for it; given a list of [n] inputs, it returns
    the list of the [n] tables of [_load_single], in input order; what it
    returns is also the [confounds_] attribute of the instance after the
    call.  An input that fails to load makes [load] raise. *)
Theorem load_one_or_list self (w : list string) :
  (forall src df,
     value_of (_load_single self src) w = Ok df ->
     value_of (load self (One src)) w
     = Ok (set_confounds_ self (Table df), Table df))
  /\ (forall srcs dfs,
        Forall2 (loaded_from self) srcs dfs ->
        value_of (load self (Several srcs)) w
        = Ok (set_confounds_ self (Tables dfs), Tables dfs)
        /\ length dfs = length srcs)
  /\ (forall arg self' out,
        value_of (load self arg) w = Ok (self', out) ->
        confounds_ self' = Some out
        /\ self' = set_confounds_ self out
        /\ match arg, out with
           | One src, Table df => value_of (_load_single self src) w = Ok df
           | Several srcs, Tables dfs => Forall2 (loaded_from self) srcs dfs
           | _, _ => False
           end).
Proof.
  split; [|split].
  - intros src df Hload. unfold value_of in *. rewrite load_one.
    unfold bind. destruct (_load_single self src w) as [[df'|e] w'];
      simpl in *; congruence.
  - intros srcs dfs Hall. split.
    + unfold value_of. rewrite load_several.
      set (collect := for_fold srcs [] _).
      assert (value_of collect w = Ok dfs) as Hfold
        by (apply collect_value; now exists dfs).
      unfold value_of in Hfold. unfold bind.
      destruct (collect w) as [[dfs'|e] w']; simpl in *; congruence.
    + symmetry. exact (Forall2_length Hall).
  - intros [src|srcs] self' out; unfold value_of.
    + rewrite load_one. unfold bind.
      destruct (_load_single self src w) as [[df|e] w']; simpl;
        [|discriminate].
      intros [= <- <-]. repeat split.
    + rewrite load_several.
      set (collect := for_fold srcs [] _).
      pose proof (collect_value self srcs [] w) as Hcollect.
      fold collect in Hcollect. unfold value_of in Hcollect. unfold bind.
      destruct (collect w) as [[dfs|e] w']; simpl; [|discriminate].
      intros [= <- <-]. repeat split.
      destruct (proj1 (Hcollect dfs) eq_refl) as [dfs' [Hall ->]].
      exact Hall.
Qed.

End Load.

(** *** An unknown compcor variant *)

Section Variant.

Context {value : Type} {ext : External value}.
Implicit Types confounds_raw df : DataFrame value.
Implicit Types self : Confounds value.


Lemma load_compcor_unbound confounds_raw (variant : string) (n_compcor : Z)
    (w : list string) :
  variant <> "anat" -> variant <> "temp" -> variant <> "full" ->
  _load_compcor confounds_raw variant n_compcor w
  = (Raise (UnboundLocalError "compcor_cols"), w).
Proof.
  intros Ha Ht Hf. unfold _load_compcor.
  apply String.eqb_neq in Ha, Ht, Hf. rewrite Ha, Ht, Hf. reflexivity.
Qed.

Lemma for_fold_app {A S} (xs ys : list A) (body : S -> A -> M S) :
  forall (acc : S) (w : list string),
    for_fold (xs ++ ys) acc body w
    = (acc' <- for_fold xs acc body ;; for_fold ys acc' body) w.
Proof.
  induction xs as [|x xs IH]; intros acc w; simpl.
  - reflexivity.
  - unfold bind. destruct (body acc x w) as [[acc'|e] w']; [|reflexivity].
    rewrite IH. reflexivity.
Qed.








End Variant.

(** ** The statements on examples *)

(** C1 (as stated) fails on the empty list: the constructor returns an
    instance with an empty strategy and raises nothing. *)
Lemma init_accepts_empty_strategy :
  value_of (@__init__ Z (ListOf []) "full" 0 "basic" "basic" "anat" 6) []
  = Ok (@Build_Confounds Z [] "full" 0 "basic" "basic" "anat" 6 None)
  /\ ~ (exists e,
          value_of (@__init__ Z (ListOf []) "full" 0 "basic" "basic" "anat" 6)
                   []
          = Raise e).
Proof.
  split; [reflexivity|]. intros [e He]. discriminate He.
Qed.

(** The selector on a table that has the anatomical components 0 to 3 only,
    asked for the components up to 6: four names and three warnings. *)
Lemma label_compcor_candidates_witness :
  _label_compcor raw_example "a" 6 []
  = (Ok ["a_comp_cor_00"; "a_comp_cor_01"; "a_comp_cor_02"; "a_comp_cor_03"],
     [MissingComponent "a_comp_cor_04"; MissingComponent "a_comp_cor_05";
      MissingComponent "a_comp_cor_06"]).
Proof.
  exact (proj1 (label_compcor_candidates raw_example "a" 6 [])).
Defined.

Lemma example_external_shapes : sklearn_shapes example_external.
Proof.
  split.
  - intros X Xs [= <-]. reflexivity.
  - intros k X Y Hk. unfold PCA_fit_transform, example_external.
    cbn [Qnum Qden inject_Z].
    destruct (_ && _ && _ && _)%bool eqn:Hcond; [|discriminate].
    intros [= <-]. simpl. split; [reflexivity|].
    apply andb_prop in Hcond. destruct Hcond as [Hcond _].
    apply andb_prop in Hcond. destruct Hcond as [_ Hle].
    apply Nat.leb_le in Hle. rewrite length_firstn. lia.
Qed.





(** The instance [confounds_6P] on the example: the six motion columns and
    then the two cosine columns, although the strategy names high_pass
    first. *)
Lemma load_single_category_order_witness :
  value_of (_load_single (ext := example_external) confounds_6P
                         (Frame raw_example)) []
  = Ok selected_6P
  /\ columns selected_6P
     = ["trans_x"; "trans_y"; "trans_z"; "rot_x"; "rot_y"; "rot_z";
        "cosine00"; "cosine01"].
Proof.
  split; [|reflexivity].
  apply (proj1 (load_single_category_order (ext := example_external)
                  confounds_6P raw_example [])).
  exists [selection raw_example (_add_suffix motion_bases "basic");
          selection raw_example ["cosine00"; "cosine01"]].
  split; [|reflexivity].
  repeat constructor.
Defined.

(** [load] on one table and on a list of a table and a path. *)
Lemma load_one_or_list_witness :
  value_of (load (ext := example_external) confounds_6P
                 (One (Frame raw_example))) []
  = Ok (set_confounds_ confounds_6P (Table selected_6P), Table selected_6P)
  /\ value_of (load (ext := example_external) confounds_6P
                 (Several [Frame raw_example;
                           Path "sub-01_desc-confounds_regressors.tsv"])) []
     = Ok (set_confounds_ confounds_6P (Tables [selected_6P; selected_6P]),
           Tables [selected_6P; selected_6P]).
Proof.
  split.
  - apply (proj1 (load_one_or_list (ext := example_external)
                    confounds_6P [])).
    reflexivity.
  - apply (proj1 (proj2 (load_one_or_list (ext := example_external)
                           confounds_6P []))).
    repeat constructor.
Defined.



(** ** Further properties of the module *)

(** *** The expander and the listing grouped by suffix *)

Lemma append_assoc3 (a b c : string) : (a +s+ b) +s+ c = a +s+ (b +s+ c).
Proof.
  induction a as [|x a IH]; simpl; [reflexivity | now rewrite IH].
Qed.

Lemma flat_map_singleton {A B} (f : A -> B) (l : list A) :
  flat_map (fun x => [f x]) l = map f l.
Proof.
  induction l as [|x l IH]; simpl; [reflexivity | now rewrite IH].
Qed.

Lemma add_suffix_derivatives (params : list string) :
  _add_suffix params "derivatives"
  = params ++ map (fun par => par +s+ "_derivative1") params.
Proof.
  rewrite add_suffix_eq, <- flat_map_singleton. reflexivity.
Qed.

Lemma add_suffix_power2 (params : list string) :
  _add_suffix params "power2"
  = params ++ map (fun par => par +s+ "_power2") params.
Proof.
  rewrite add_suffix_eq, <- flat_map_singleton. reflexivity.
Qed.

(** X1: expanding by "derivatives" and then by "power2" gives the listing
    grouped by suffix: the bases, their derivatives, the squares of the
    bases and the squares of the derivatives. *)
Theorem add_suffix_derivatives_then_power2 (params : list string) :
  _add_suffix (_add_suffix params "derivatives") "power2"
  = grouped_by_suffix params.
Proof.
  rewrite add_suffix_power2, add_suffix_derivatives.
  unfold grouped_by_suffix.
  rewrite map_app, map_map, <- app_assoc. do 3 f_equal.
  apply map_ext. intros par. apply append_assoc3.
Qed.

(** X2: the "full" expansion has the same names as the listing grouped by
    suffix, as often: the two differ only in the order of the derived
    names. *)
Theorem add_suffix_full_permutation (params : list string) :
  Permutation (_add_suffix params "full") (grouped_by_suffix params).
Proof.
  rewrite add_suffix_eq. unfold grouped_by_suffix.
  apply Permutation_app_head.
  induction params as [|par params IH]; simpl; [constructor|].
  change (suffixed "full" par)
    with [par +s+ "_derivative1"; par +s+ "_power2";
          par +s+ "_derivative1_power2"].
  simpl. constructor.
  apply Permutation_cons_app.
  rewrite app_assoc. apply Permutation_cons_app. rewrite <- app_assoc.
  exact IH.
Qed.

(** *** Which error comes first *)

Lemma find_app_first {A} (f : A -> bool) (good rest : list A) (bad : A) :
  (forall x, In x good -> f x = false) -> f bad = true ->
  find f (good ++ bad :: rest) = Some bad.
Proof.
  intros Hgood Hbad. induction good as [|x good IH]; simpl.
  - now rewrite Hbad.
  - rewrite (Hgood x) by now left. apply IH. intros y Hy. apply Hgood.
    now right.
Qed.

(** X3: the validator goes through the required names in order and its
    error names the first one that the table lacks, whatever follows. *)
Theorem check_params_first_missing {value} (confounds_raw : DataFrame value)
    (good rest : list string) (bad : string) (w : list string) :
  (forall par, In par good -> In par (columns confounds_raw)) ->
  ~ In bad (columns confounds_raw) ->
  _check_params confounds_raw (good ++ bad :: rest) w
  = (Raise (MissingColumn bad), w).
Proof.
  intros Hgood Hbad. rewrite check_params_find, (find_app_first _ _ _ bad).
  - reflexivity.
  - intros par Hin. unfold absent. apply negb_false_iff, mem_In.
    now apply Hgood.
  - now apply absent_true.
Qed.

Lemma check_params_first_missing_witness :
  (forall par, In par ["csf"; "white_matter"] -> In par (columns raw_example))
  /\ ~ In "csf_power2" (columns raw_example)
  /\ _check_params raw_example
       (["csf"; "white_matter"] ++ "csf_power2" :: ["white_matter_power2"]) []
     = (Raise (MissingColumn "csf_power2"), []).
Proof.
  assert (forall par, In par ["csf"; "white_matter"]
                      -> In par (columns raw_example)) as Hgood.
  { intros par [<- | [<- | []]]; apply mem_In; reflexivity. }
  assert (~ In "csf_power2" (columns raw_example)) as Hbad.
  { apply mem_not_In. reflexivity. }
  split; [exact Hgood|]. split; [exact Hbad|].
  exact (check_params_first_missing raw_example ["csf"; "white_matter"]
           ["white_matter_power2"] "csf_power2" [] Hgood Hbad).
Defined.

(** X4: [_sanitize_strategy] returns a list of vocabulary names as it
    is, in the same order and with its repetitions; when a member is not
    supported, the error names the first such member and the members after
    it are not looked at. *)
Theorem sanitize_strategy_first_unsupported (good rest : list atom)
    (bad : atom) (w : list string) :
  (forall conf, In conf good -> supported conf) ->
  (_sanitize_strategy (ListOf good) w = (Ok good, w))
  /\ (~ supported bad ->
      _sanitize_strategy (ListOf (good ++ bad :: rest)) w
      = (Raise (InvalidStrategy_unsupported (format bad)), w)).
Proof.
  intros Hgood.
  assert (forall conf, In conf good ->
            negb (atom_in conf all_confounds) = false) as Hfalse.
  { intros conf Hin. apply negb_false_iff, atom_in_supported.
    now apply Hgood. }
  split.
  - rewrite sanitize_strategy_list.
    destruct (find (fun conf => negb (atom_in conf all_confounds)) good)
      as [conf|] eqn:Hfind; [|reflexivity].
    apply find_some in Hfind. destruct Hfind as [Hin Hneg].
    rewrite (Hfalse conf Hin) in Hneg. discriminate.
  - intros Hbad. rewrite sanitize_strategy_list.
    rewrite (find_app_first _ _ _ bad); [reflexivity | exact Hfalse |].
    apply negb_true_iff.
    destruct (atom_in bad all_confounds) eqn:Hin; [|reflexivity].
    exfalso. now apply Hbad, atom_in_supported.
Qed.

Lemma sanitize_strategy_first_unsupported_witness :
  (forall conf, In conf [Str "motion"] -> supported conf)
  /\ _sanitize_strategy (ListOf [Str "motion"]) [] = (Ok [Str "motion"], [])
  /\ _sanitize_strategy (ListOf ([Str "motion"] ++ Str "bogus" :: [Int 3])) []
     = (Raise (ValueError "bogus is not a supported type of confounds."), []).
Proof.
  assert (forall conf, In conf [Str "motion"] -> supported conf) as Hgood.
  { intros conf [<- | []]. exists "motion". split; [simpl; tauto|reflexivity]. }
  split; [exact Hgood|].
  destruct (sanitize_strategy_first_unsupported [Str "motion"] [Int 3]
              (Str "bogus") [] Hgood) as [Hok Hbad].
  split; [exact Hok|].
  apply Hbad. intros [name [Hin Heq]]. injection Heq as <-.
  simpl in Hin. repeat (destruct Hin as [Hin | Hin]; [discriminate Hin|]).
  exact Hin.
Defined.

(** *** The loaders of the tissue, global and cosine columns *)

Section Loaders.

Context {value : Type}.
Implicit Types confounds_raw : DataFrame value.

Lemma add_suffix_count (params : list string) (model : string) :
  length (_add_suffix params model) = names_per_base model * length params.
Proof.
  rewrite add_suffix_eq, length_app, flat_map_suffixed_length.
  pose proof (names_per_base_pos model). nia.
Qed.

Lemma check_select confounds_raw (params : list string) (w : list string) :
  ((forall par, In par params -> In par (columns confounds_raw))
   <-> (_check_params confounds_raw params ;;; getitem confounds_raw params) w
       = (Ok (selection confounds_raw params), w))
  /\ ((exists par, In par params /\ ~ In par (columns confounds_raw))
      <-> exists par,
            In par params /\ ~ In par (columns confounds_raw)
            /\ (_check_params confounds_raw params ;;;
                getitem confounds_raw params) w
               = (Raise (MissingColumn par), w)).
Proof.
  rewrite check_getitem.
  destruct (find (absent confounds_raw) params) as [par|] eqn:Hfind.
  - pose proof (find_some _ _ Hfind) as [Hin Habs].
    apply absent_true in Habs. split; split.
    + intros Hall. exfalso. apply Habs, Hall, Hin.
    + discriminate.
    + intros _. exists par. repeat split; assumption.
    + intros [par' [Hin' [Habs' _]]]. now exists par'.
  - pose proof (proj1 (find_absent_none _ _) Hfind) as Hall.
    split; split.
    + reflexivity.
    + intros _. exact Hall.
    + intros [par [Hin Habs]]. exfalso. apply Habs, Hall, Hin.
    + intros [par [_ [_ H]]]. discriminate H.
Qed.

(** X5: the white-matter and CSF loader returns the columns named by the
    expansion of [csf] and [white_matter], with all the rows, exactly when
    the table has all of them, and raises [MissingColumn] for a missing one
    otherwise; there are 2, 4 or 8 names, and in a table without repeated
    column names they are the columns of the result, in that order. *)
Theorem load_wm_csf_columns confounds_raw (wm_csf : string)
    (w : list string) :
  let wm_csf_params := _add_suffix ["csf"; "white_matter"] wm_csf in
  ((forall par, In par wm_csf_params -> In par (columns confounds_raw))
   <-> _load_wm_csf confounds_raw wm_csf w
       = (Ok (selection confounds_raw wm_csf_params), w))
  /\ ((exists par, In par wm_csf_params /\ ~ In par (columns confounds_raw))
      <-> exists par,
            In par wm_csf_params /\ ~ In par (columns confounds_raw)
            /\ _load_wm_csf confounds_raw wm_csf w
               = (Raise (MissingColumn par), w))
  /\ (NoDup (columns confounds_raw) ->
      (forall par, In par wm_csf_params -> In par (columns confounds_raw)) ->
      columns (selection confounds_raw wm_csf_params) = wm_csf_params)
  /\ nrows (selection confounds_raw wm_csf_params) = nrows confounds_raw
  /\ length wm_csf_params = 2 * names_per_base wm_csf.
Proof.
  intros wm_csf_params. unfold _load_wm_csf. fold wm_csf_params.
  destruct (check_select confounds_raw wm_csf_params w) as [Hok Hraise].
  split; [exact Hok|]. split; [exact Hraise|]. split; [|split].
  - apply selection_columns.
  - reflexivity.
  - unfold wm_csf_params. rewrite add_suffix_count. simpl. lia.
Qed.

(** X6: the global-signal loader returns the columns named by the
    expansion of [global_signal], with all the rows, exactly when the table
    has all of them, and raises [MissingColumn] for a missing one
    otherwise; there are 1, 2 or 4 names, and in a table without repeated
    column names they are the columns of the result, in that order. *)
Theorem load_global_columns confounds_raw (global_signal : string)
    (w : list string) :
  let global_params := _add_suffix ["global_signal"] global_signal in
  ((forall par, In par global_params -> In par (columns confounds_raw))
   <-> _load_global confounds_raw global_signal w
       = (Ok (selection confounds_raw global_params), w))
  /\ ((exists par, In par global_params /\ ~ In par (columns confounds_raw))
      <-> exists par,
            In par global_params /\ ~ In par (columns confounds_raw)
            /\ _load_global confounds_raw global_signal w
               = (Raise (MissingColumn par), w))
  /\ (NoDup (columns confounds_raw) ->
      (forall par, In par global_params -> In par (columns confounds_raw)) ->
      columns (selection confounds_raw global_params) = global_params)
  /\ nrows (selection confounds_raw global_params) = nrows confounds_raw
  /\ length global_params = names_per_base global_signal.
Proof.
  intros global_params. unfold _load_global. fold global_params.
  destruct (check_select confounds_raw global_params w) as [Hok Hraise].
  split; [exact Hok|]. split; [exact Hraise|]. split; [|split].
  - apply selection_columns.
  - reflexivity.
  - unfold global_params. rewrite add_suffix_count. simpl. lia.
Qed.

Lemma filter_columns_present confounds_raw (f : string -> bool) :
  find (absent confounds_raw) (filter f (columns confounds_raw)) = None.
Proof.
  apply find_absent_none. intros par Hin. apply filter_In in Hin. tauto.
Qed.

Lemma load_high_pass_eq confounds_raw (w : list string) :
  _load_high_pass confounds_raw w
  = (if existsb (str_in "cosine") (columns confounds_raw)
     then Ok (selection confounds_raw
                (filter (str_in "cosine") (columns confounds_raw)))
     else Raise (NoMatchingColumn "cosine"), w).
Proof.
  unfold _load_high_pass, bind. rewrite find_confounds_find.
  cbn [find flat_map]. unfold unmatched.
  destruct (existsb (str_in "cosine") (columns confounds_raw)); simpl;
    [|reflexivity].
  rewrite app_nil_r. apply getitem_present, filter_columns_present.
Qed.

(** X7: the high-pass loader raises [NoMatchingColumn] for "cosine" when
    no column name contains "cosine", and otherwise returns, with all the
    rows, the columns whose names contain it, in the order of the table;
    it never fails for another reason. *)
Theorem load_high_pass_cosine confounds_raw (w : list string) :
  let cosines := filter (str_in "cosine") (columns confounds_raw) in
  ((forall col, In col (columns confounds_raw) -> ~ substring_of "cosine" col)
   <-> _load_high_pass confounds_raw w
       = (Raise (NoMatchingColumn "cosine"), w))
  /\ ((exists col, In col (columns confounds_raw) /\ substring_of "cosine" col)
      <-> _load_high_pass confounds_raw w
          = (Ok (selection confounds_raw cosines), w))
  /\ (forall col, In col cosines
                  <-> In col (columns confounds_raw)
                      /\ substring_of "cosine" col)
  /\ (NoDup (columns confounds_raw) ->
      columns (selection confounds_raw cosines) = cosines)
  /\ nrows (selection confounds_raw cosines) = nrows confounds_raw.
Proof.
  intros cosines. rewrite load_high_pass_eq. fold cosines.
  pose proof (unmatched_true confounds_raw "cosine") as Hnone.
  pose proof (unmatched_false confounds_raw "cosine") as Hsome.
  unfold unmatched in Hnone, Hsome.
  rewrite negb_true_iff in Hnone. rewrite negb_false_iff in Hsome.
  destruct (existsb (str_in "cosine") (columns confounds_raw)).
  - split; [|split; [|split; [|split]]].
    + split; [|discriminate]. intros H. apply Hnone in H. discriminate.
    + split; [reflexivity|]. intros _. now apply Hsome.
    + intros col. unfold cosines. now rewrite filter_In, str_in_spec.
    + intros Hnd. apply selection_columns; [assumption|].
      intros par Hin. apply filter_In in Hin. tauto.
    + reflexivity.
  - split; [|split; [|split; [|split]]].
    + split; [reflexivity|]. intros _. now apply Hnone.
    + split; [|discriminate]. intros H. apply Hsome in H. discriminate.
    + intros col. unfold cosines. now rewrite filter_In, str_in_spec.
    + intros Hnd. apply selection_columns; [assumption|].
      intros par Hin. apply filter_In in Hin. tauto.
    + reflexivity.
Qed.

End Loaders.

(** *** The compcor loader on its three variants *)

Lemma insert_sorted_permutation (x : string) (l : list string) :
  Permutation (insert_sorted x l) (x :: l).
Proof.
  induction l as [|y l IH]; simpl; [reflexivity|].
  destruct (String.leb x y); [reflexivity|].
  rewrite IH. apply perm_swap.
Qed.

Lemma sort_permutation (l : list string) : Permutation (sort l) l.
Proof.
  induction l as [|x l IH]; simpl; [constructor|].
  rewrite insert_sorted_permutation. now constructor.
Qed.

Lemma insert_sorted_sorted (x : string) (l : list string) :
  Sorted (fun a b => String.leb a b = true) l ->
  Sorted (fun a b => String.leb a b = true) (insert_sorted x l).
Proof.
  induction 1 as [|y l Hl IH Hhd]; simpl.
  - repeat constructor.
  - destruct (String.leb x y) eqn:Hxy.
    + constructor; [now constructor | now constructor].
    + constructor; [exact IH|].
      assert (String.leb y x = true) as Hyx
        by (destruct (String.leb_total x y); congruence).
      destruct l as [|z l]; simpl.
      * now constructor.
      * destruct (String.leb x z); constructor; [assumption|].
        now inversion Hhd.
Qed.

Lemma sort_sorted (l : list string) :
  Sorted (fun a b => String.leb a b = true) (sort l).
Proof.
  induction l as [|x l IH]; simpl; [constructor|].
  now apply insert_sorted_sorted.
Qed.

Section Compcor.

Context {value : Type}.
Implicit Types confounds_raw : DataFrame value.

Lemma load_compcor_tail confounds_raw (cols : list string) (w : list string) :
  (forall c, In c cols -> In c (columns confounds_raw)) ->
  (_check_params confounds_raw (sort cols) ;;;
   getitem confounds_raw (sort cols)) w
  = (Ok (selection confounds_raw (sort cols)), w).
Proof.
  intros Hall. apply (check_select confounds_raw (sort cols) w).
  intros par Hin. apply Hall.
  now apply (Permutation_in _ (sort_permutation cols)).
Qed.

Lemma found_present confounds_raw (candidates : list string) (c : string) :
  In c (filter (fun c => mem c (columns confounds_raw)) candidates) ->
  In c (columns confounds_raw).
Proof. intros Hin. apply filter_In in Hin. now apply mem_In. Qed.

Lemma load_compcor_known_eq confounds_raw (variant : string) (N : Z)
    (w : list string) :
  variant = "anat" \/ variant = "temp" \/ variant = "full" ->
  _load_compcor confounds_raw variant N w
  = (Ok (selection confounds_raw
           (sort (filter (fun c => mem c (columns confounds_raw))
                         (variant_candidates variant N)))),
     w ++ map MissingComponent
              (filter (absent confounds_raw) (variant_candidates variant N))).
Proof.
  intros [-> | [-> | ->]]; unfold _load_compcor, variant_candidates;
    cbn [compcor_prefixes String.eqb Ascii.eqb Bool.eqb andb flat_map].
  - rewrite app_nil_r.
    erewrite bind_ok;
      [|erewrite bind_ok; [reflexivity | apply label_compcor_eq]].
    erewrite bind_ok by reflexivity. erewrite bind_ok by reflexivity.
    apply load_compcor_tail. apply found_present.
  - rewrite app_nil_r.
    erewrite bind_ok by reflexivity.
    erewrite bind_ok;
      [|erewrite bind_ok; [reflexivity | apply label_compcor_eq]].
    erewrite bind_ok by reflexivity.
    apply load_compcor_tail. apply found_present.
  - rewrite app_nil_r, !filter_app, map_app, app_assoc.
    erewrite bind_ok by reflexivity. erewrite bind_ok by reflexivity.
    erewrite bind_ok;
      [|erewrite bind_ok;
         [erewrite bind_ok; [reflexivity | apply label_compcor_eq]
         | apply label_compcor_eq]].
    apply load_compcor_tail.
    intros c Hin. apply in_app_or in Hin.
    destruct Hin as [Hin | Hin]; exact (found_present _ _ _ Hin).
Qed.

(** X8: with the variant "anat", "temp" or "full" the compcor loader never
    raises, however few of the components the table has: it returns the
    columns of the candidates that the table has (those of "a", of "t", or
    of both), their names in ascending order, with all the rows, and warns
    once for each candidate that the table lacks. *)
Theorem load_compcor_known confounds_raw (variant : string) (N : Z)
    (w : list string) :
  variant = "anat" \/ variant = "temp" \/ variant = "full" ->
  let candidates := variant_candidates variant N in
  let found := filter (fun c => mem c (columns confounds_raw)) candidates in
  exists names,
    _load_compcor confounds_raw variant N w
    = (Ok (selection confounds_raw names),
       w ++ map MissingComponent (filter (absent confounds_raw) candidates))
    /\ Permutation names found
    /\ Sorted (fun a b => String.leb a b = true) names
    /\ (forall c, In c names
                  <-> In c candidates /\ In c (columns confounds_raw)).
Proof.
  intros Hvariant candidates found. exists (sort found).
  split; [now apply load_compcor_known_eq|].
  split; [apply sort_permutation|]. split; [apply sort_sorted|].
  intros c. split.
  - intros Hin. apply (Permutation_in _ (sort_permutation found)) in Hin.
    unfold found in Hin. apply filter_In in Hin.
    now rewrite mem_In in Hin.
  - intros [Hc Hcol].
    apply (Permutation_in _ (Permutation_sym (sort_permutation found))).
    unfold found. apply filter_In. now rewrite mem_In.
Qed.

End Compcor.

Lemma load_compcor_known_witness :
  ("full" = "anat" \/ "full" = "temp" \/ "full" = "full")
  /\ exists names,
       _load_compcor raw_example "full" 1 []
       = (Ok (selection raw_example names),
          [MissingComponent "t_comp_cor_00"; MissingComponent "t_comp_cor_01"])
       /\ Permutation names ["a_comp_cor_00"; "a_comp_cor_01"]
       /\ Sorted (fun a b => String.leb a b = true) names
       /\ (forall c, In c names
                     <-> In c (variant_candidates "full" 1)
                         /\ In c (columns raw_example)).
Proof.
  assert ("full" = "anat" \/ "full" = "temp" \/ "full" = "full") as H
    by (right; right; reflexivity).
  split; [exact H|].
  exact (load_compcor_known raw_example "full" 1 [] H).
Defined.

(** *** Errors and dropped rows of the motion loader *)

Section MotionErrors.

Context {value : Type} {ext : External value}.
Implicit Types confounds_raw confounds_motion : DataFrame value.

Lemma dropna_is_complete confounds_motion :
  complete (dropna confounds_motion).
Proof.
  unfold complete, dropna. cbn [nrows data].
  apply Forall_forall. intros c' Hin.
  apply in_map_iff in Hin. destruct Hin as [c [<- Hc]]. cbn [snd].
  split; [apply length_map|].
  apply Forall_forall. intros x Hx.
  apply in_map_iff in Hx. destruct Hx as [i [<- Hi]].
  apply filter_In in Hi. destruct Hi as [_ Hrow].
  unfold row_complete in Hrow. rewrite forallb_forall in Hrow.
  specialize (Hrow c Hc).
  destruct (nth i (snd c) None); [discriminate | discriminate Hrow].
Qed.

Lemma dropna_nrows_le confounds_motion :
  nrows (dropna confounds_motion) <= nrows confounds_motion.
Proof.
  unfold dropna. cbn [nrows].
  pose proof (filter_length_le (row_complete confounds_motion)
                (seq 0 (nrows confounds_motion))) as H.
  now rewrite length_seq in H.
Qed.

(** X9: a motion column that the table lacks is reported by the motion
    loader as [MissingColumn] before any reduction is tried, whatever the
    target count; with the columns there and a positive count, an error of
    the scaler or of the analysis is the error of the loader. *)
Theorem load_motion_errors confounds_raw (motion : string) (w : list string) :
  let motion_params := _add_suffix motion_bases motion in
  let expanded := selection confounds_raw motion_params in
  ((exists par, In par motion_params /\ ~ In par (columns confounds_raw)) ->
   exists par,
     In par motion_params /\ ~ In par (columns confounds_raw)
     /\ forall n_motion,
          _load_motion confounds_raw motion n_motion w
          = (Raise (MissingColumn par), w))
  /\ ((forall par, In par motion_params -> In par (columns confounds_raw)) ->
      forall n_motion, (0 < n_motion)%Q ->
        (forall e,
           StandardScaler_fit_transform (values (dropna expanded)) = Raise e ->
           _load_motion confounds_raw motion n_motion w = (Raise e, w))
        /\ (forall Xs e,
              StandardScaler_fit_transform (values (dropna expanded)) = Ok Xs ->
              PCA_fit_transform n_motion Xs = Raise e ->
              _load_motion confounds_raw motion n_motion w = (Raise e, w))).
Proof.
  intros motion_params expanded. split.
  - intros Hmissing.
    destruct (find (absent confounds_raw) motion_params) as [par|] eqn:Hfind.
    + pose proof (find_some _ _ Hfind) as [Hin Habs].
      apply absent_true in Habs. exists par. repeat split; try assumption.
      intros n_motion. unfold _load_motion. fold motion_bases.
      fold motion_params. unfold bind at 1.
      now rewrite check_params_find, Hfind.
    + destruct Hmissing as [par [Hin Habs]]. exfalso.
      apply Habs. now apply (proj1 (find_absent_none _ _) Hfind).
  - intros Hpresent n_motion Hpos.
    apply find_absent_none in Hpresent.
    assert (_load_motion confounds_raw motion n_motion w
            = _pca_motion expanded n_motion w) as ->.
    { unfold _load_motion. fold motion_bases. fold motion_params.
      unfold bind. rewrite check_params_find, Hpresent.
      rewrite getitem_present by assumption.
      destruct (Qlt_le_dec 0 n_motion) as [_|Hle]; [reflexivity|].
      exfalso. exact (Qlt_not_le _ _ Hpos Hle). }
    unfold _pca_motion, bind, lift. split.
    + intros e ->. reflexivity.
    + intros Xs e -> ->. reflexivity.
Qed.

(** X10: the reduction works on the rows without a missing value: what
    the scaler receives has no missing entry, and when the estimators
    return for an integer count [k > 0] the result has the columns
    [motion_pca_1 .. motion_pca_k] and as many rows as the motion columns
    have rows without a missing value, which may be fewer than the rows of
    the table. *)
Theorem pca_motion_drops_incomplete_rows confounds_motion (k : Z)
    (Xs Y : ndarray value) (w : list string) :
  (0 < k)%Z ->
  sklearn_shapes ext ->
  StandardScaler_fit_transform (values (dropna confounds_motion)) = Ok Xs ->
  PCA_fit_transform (inject_Z k) Xs = Ok Y ->
  complete (dropna confounds_motion)
  /\ exists df,
       _pca_motion confounds_motion (inject_Z k) w = (Ok df, w)
       /\ columns df = motion_pca_names k
       /\ nrows df
          = length (filter (row_complete confounds_motion)
                           (seq 0 (nrows confounds_motion)))
       /\ nrows df <= nrows confounds_motion.
Proof.
  intros Hk [Hscaler Hpca] HXs HY.
  split; [apply dropna_is_complete|].
  unfold _pca_motion, bind, lift, ret. rewrite HXs, HY.
  eexists. split; [reflexivity|].
  destruct (Hpca k Xs Y Hk HY) as [HnY HkY].
  assert (n_samples Y = nrows (dropna confounds_motion)) as Hrows.
  { rewrite HnY, (Hscaler _ _ HXs). reflexivity. }
  unfold columns. cbn [nrows data]. rewrite HkY, motion_pca_names_range.
  split; [|split].
  - apply map_fst_combine.
    unfold motion_pca_names. now rewrite length_map, length_seq, HkY.
  - rewrite Hrows. reflexivity.
  - rewrite Hrows. apply dropna_nrows_le.
Qed.

End MotionErrors.

Lemma pca_motion_drops_incomplete_rows_witness :
  (0 < 1)%Z
  /\ sklearn_shapes example_external
  /\ complete (dropna motion_with_gap)
  /\ exists df,
       _pca_motion (ext := example_external) motion_with_gap (inject_Z 1) []
       = (Ok df, [])
       /\ columns df = ["motion_pca_1"]
       /\ nrows df = 2
       /\ nrows df <= 3.
Proof.
  split; [reflexivity|]. split; [exact example_external_shapes|].
  exact (pca_motion_drops_incomplete_rows (ext := example_external)
           motion_with_gap 1 _ _ [] eq_refl example_external_shapes
           eq_refl eq_refl).
Defined.

Lemma load_motion_errors_witness :
  (exists par, In par (_add_suffix motion_bases "full")
               /\ ~ In par (columns raw_example))
  /\ exists par,
       In par (_add_suffix motion_bases "full")
       /\ ~ In par (columns raw_example)
       /\ forall n_motion,
            _load_motion (ext := example_external) raw_example "full"
                         n_motion []
            = (Raise (MissingColumn par), []).
Proof.
  assert (exists par, In par (_add_suffix motion_bases "full")
                      /\ ~ In par (columns raw_example)) as H.
  { exists "trans_x_derivative1". split.
    - simpl. tauto.
    - apply mem_not_In. reflexivity. }
  split; [exact H|].
  exact (proj1 (load_motion_errors (ext := example_external) raw_example
                  "full" []) H).
Defined.

(** *** From the path of an image to the file of its confounds *)

Lemma append_nil_r (s : string) : s +s+ EmptyString = s.
Proof. induction s as [|c s IH]; simpl; [reflexivity | now rewrite IH]. Qed.

Lemma prefix_refl_app (a b : string) : String.prefix a (a +s+ b) = true.
Proof. apply prefix_spec. now exists b. Qed.

Lemma drop_chars_app (a b : string) :
  drop_chars (String.length a) (a +s+ b) = b.
Proof. induction a as [|c a IH]; simpl; [now destruct b | exact IH]. Qed.

Lemma partition_nil (sep : string) :
  partition sep EmptyString
  = if String.prefix sep EmptyString
    then Some (EmptyString, drop_chars (String.length sep) EmptyString)
    else None.
Proof. reflexivity. Qed.

Lemma partition_cons (sep : string) (c : ascii) (rest : string) :
  partition sep (String c rest)
  = if String.prefix sep (String c rest)
    then Some (EmptyString, drop_chars (String.length sep) (String c rest))
    else match partition sep rest with
         | Some (before, after) => Some (String c before, after)
         | None => None
         end.
Proof. reflexivity. Qed.

Lemma partition_none (sep s : string) :
  str_in sep s = false -> partition sep s = None.
Proof.
  induction s as [|c s IH].
  - rewrite str_in_nil, partition_nil. now intros ->.
  - rewrite str_in_cons, partition_cons. intros H.
    apply orb_false_iff in H. destruct H as [-> Hrest].
    now rewrite IH.
Qed.

Lemma partition_first (sep s before after : string) :
  partition sep s = Some (before, after) ->
  s = before +s+ sep +s+ after
  /\ forall pre post,
       before = pre +s+ post -> post <> EmptyString ->
       String.prefix sep (post +s+ sep +s+ after) = false.
Proof.
  revert before. induction s as [|c s IH]; intros before.
  - rewrite partition_nil.
    destruct (String.prefix sep EmptyString) eqn:Hp; [|discriminate].
    intros [= <- <-]. apply prefix_spec in Hp. destruct Hp as [t Ht].
    destruct sep; [|discriminate Ht]. simpl. split; [reflexivity|].
    intros [|] [|]; simpl; congruence.
  - rewrite partition_cons.
    destruct (String.prefix sep (String c s)) eqn:Hp.
    + intros [= <- <-]. apply prefix_spec in Hp. destruct Hp as [t Ht].
      rewrite Ht, drop_chars_app. split; [reflexivity|].
      intros [|] [|]; simpl; congruence.
    + destruct (partition sep s) as [[b a]|] eqn:Hs; [|discriminate].
      intros [= <- <-]. destruct (IH b eq_refl) as [Heq Hmin].
      split; [simpl; now rewrite <- Heq|].
      intros pre post Hsplit Hne. destruct pre as [|x pre]; simpl in Hsplit.
      * subst post. simpl. now rewrite <- Heq.
      * injection Hsplit as _ Hsplit. now apply Hmin with (pre := pre).
Qed.

Lemma replace_from_skip (old new s : string) (k : nat) :
  String.length s <= k -> replace_from k old new s = EmptyString.
Proof.
  revert k. induction s as [|c s IH]; intros k Hk; simpl; [reflexivity|].
  simpl in Hk. destruct k as [|k]; [lia|]. apply IH. lia.
Qed.

Lemma replace_from_cons (old new : string) (c : ascii) (rest : string) :
  replace_from 0 old new (String c rest)
  = if String.prefix old (String c rest)
    then new +s+ replace_from (String.length old - 1) old new rest
    else String c (replace_from 0 old new rest).
Proof. reflexivity. Qed.

Lemma replace_last (old new stem : string) :
  old <> EmptyString ->
  (forall pre post,
     stem = pre +s+ post -> post <> EmptyString ->
     String.prefix old (post +s+ old) = false) ->
  replace old new (stem +s+ old) = stem +s+ new.
Proof.
  intros Hold. unfold replace. induction stem as [|c stem IH]; intros Hno.
  - destruct old as [|x old]; [congruence|].
    change (EmptyString +s+ String x old) with (String x old).
    rewrite replace_from_cons.
    assert (String.prefix (String x old) (String x old) = true) as ->.
    { apply prefix_spec. exists EmptyString. now rewrite append_nil_r. }
    rewrite replace_from_skip by (simpl; lia).
    now rewrite append_nil_r.
  - change (String c stem +s+ old) with (String c (stem +s+ old)).
    rewrite replace_from_cons.
    change (String c (stem +s+ old)) with (String c stem +s+ old).
    rewrite (Hno EmptyString (String c stem) eq_refl) by discriminate.
    change (String c stem +s+ new) with (String c (stem +s+ new)).
    f_equal. apply IH. intros pre post Hsplit Hne.
    apply Hno with (pre := String c pre); [|assumption].
    simpl. now rewrite Hsplit.
Qed.

Lemma prefix_empty (s : string) : String.prefix EmptyString s = true.
Proof. now destruct s. Qed.

Lemma prefix_cons (a b : ascii) (s1 s2 : string) :
  String.prefix (String a s1) (String b s2)
  = (Ascii.eqb a b && String.prefix s1 s2)%bool.
Proof.
  cbn [String.prefix]. destruct (ascii_dec a b) as [->|Hne].
  - now rewrite Ascii.eqb_refl.
  - apply Ascii.eqb_neq in Hne. now rewrite Hne.
Qed.

Lemma prefix_cons_nil (a : ascii) (s1 : string) :
  String.prefix (String a s1) EmptyString = false.
Proof. reflexivity. Qed.

Lemma no_space_across (post tail : string) :
  post <> EmptyString ->
  String.prefix "space-" post = false ->
  String.prefix "space-" (post +s+ String "_" tail) = false.
Proof.
  intros Hne Hp.
  destruct post as [|c1 [|c2 [|c3 [|c4 [|c5 [|c6 post]]]]]];
    [congruence|..]; cbn [String.append];
    rewrite ?prefix_cons, ?prefix_empty, ?prefix_cons_nil in *;
    try exact Hp;
    repeat match goal with
    | |- context [Ascii.eqb ?a ?c] => is_var c; destruct (Ascii.eqb a c)
    end; reflexivity.
Qed.

Lemma str_in_false_prefix (key s : string) :
  str_in key s = false -> String.prefix key s = false.
Proof.
  destruct s as [|c s].
  - now rewrite str_in_nil.
  - rewrite str_in_cons. intros H. apply orb_false_iff in H. tauto.
Qed.

Lemma partition_stem (stem rest : string) :
  str_in "space-" stem = false ->
  partition "space-" (stem +s+ "_space-" +s+ rest)
  = Some (stem +s+ "_", rest).
Proof.
  induction stem as [|c stem IH]; intros Hin.
  - change (EmptyString +s+ "_space-" +s+ rest)
      with (String "_" ("space-" +s+ rest)).
    rewrite partition_cons.
    assert (String.prefix "space-" (String "_" ("space-" +s+ rest)) = false)
      as -> by (now rewrite prefix_cons).
    assert (partition "space-" ("space-" +s+ rest) = Some (EmptyString, rest))
      as ->; [|reflexivity].
    change ("space-" +s+ rest) with (String "s" ("pace-" +s+ rest)).
    rewrite partition_cons.
    change (String "s" ("pace-" +s+ rest)) with ("space-" +s+ rest).
    now rewrite prefix_refl_app, drop_chars_app.
  - change (String c stem +s+ "_space-" +s+ rest)
      with (String c (stem +s+ "_space-" +s+ rest)).
    rewrite partition_cons.
    change (String c (stem +s+ "_space-" +s+ rest))
      with (String c stem +s+ String "_" ("space-" +s+ rest)).
    rewrite no_space_across;
      [|discriminate | now apply str_in_false_prefix].
    rewrite str_in_cons in Hin. apply orb_false_iff in Hin.
    change (stem +s+ String "_" ("space-" +s+ rest))
      with (stem +s+ "_space-" +s+ rest).
    now rewrite IH.
Qed.

Section Paths.

Context {value : Type} {ext : External value}.

(** X11: for the path of an image, one with "nii" among its last six
    characters, that has no "space-" in it, [_confounds2df] raises
    [IndexError] and reads no file. *)
Theorem confounds2df_image_without_space (path : string) (w : list string) :
  str_in "nii" (last_chars 6 path) = true ->
  str_in "space-" path = false ->
  _confounds2df (Path path) w
  = (Raise (IndexError "list index out of range"), w).
Proof.
  intros Hnii Hspace. unfold _confounds2df. rewrite Hnii.
  unfold bind, lift, split_item1. now rewrite partition_none.
Qed.

(** X12: for the path of an image [<stem>_space-<rest>], with "nii" among
    its last six characters (characters, not bytes: a path may hold
    accented letters) and no other "space-" in it, [_confounds2df]
    reads the file [<stem>_desc-confounds_regressors.tsv] and returns what
    the reader returns; a path without "nii" among its last six characters
    is read as it is. *)
Theorem confounds2df_image_path (stem rest : string) (w : list string) :
  let path := stem +s+ "_space-" +s+ rest in
  (str_in "space-" stem = false ->
   str_in "space-" rest = false ->
   str_in "nii" (last_chars 6 path) = true ->
   _confounds2df (Path path) w
   = (read_csv (stem +s+ "_desc-confounds_regressors.tsv"), w))
  /\ (forall other,
        str_in "nii" (last_chars 6 other) = false ->
        _confounds2df (Path other) w = (read_csv other, w)).
Proof.
  intros path. split.
  - intros Hstem Hrest Hnii.
    pose proof (partition_stem stem rest Hstem) as Hpart. fold path in Hpart.
    unfold _confounds2df. rewrite Hnii.
    unfold bind at 1. unfold bind at 1. unfold lift at 1, split_item1.
    rewrite Hpart, (partition_none _ _ Hrest). cbn beta iota.
    unfold ret at 1. cbn beta iota.
    assert (replace ("_space-" +s+ rest) "_desc-confounds_regressors.tsv" path
            = stem +s+ "_desc-confounds_regressors.tsv") as ->.
    { unfold path. apply replace_last; [discriminate|].
      intros pre post Hsplit Hne.
      destruct (String.prefix ("_space-" +s+ rest)
                  (post +s+ "_space-" +s+ rest)) eqn:Hp; [|reflexivity].
      exfalso. apply prefix_spec in Hp. destruct Hp as [t Ht].
      destruct post as [|c post]; [congruence|].
      simpl in Ht. injection Ht as -> Ht.
      destruct (partition_first _ _ _ _ Hpart) as [_ Hmin].
      assert (String.prefix "space-" ((post +s+ "_") +s+ "space-" +s+ rest)
              = false) as Hno.
      { apply Hmin with (pre := pre +s+ "_").
        - rewrite Hsplit, !append_assoc3. reflexivity.
        - destruct post; discriminate. }
      rewrite append_assoc3 in Hno. simpl in Ht. cbn [String.append] in Hno.
      rewrite Ht in Hno. rewrite !prefix_cons, prefix_empty in Hno.
      cbv in Hno. discriminate Hno. }
    reflexivity.
  - intros other Hnii. unfold _confounds2df. rewrite Hnii. reflexivity.
Qed.

End Paths.

Lemma confounds2df_image_without_space_witness :
  str_in "nii" (last_chars 6 "sub-01_task-rest_bold.nii.gz") = true
  /\ str_in "space-" "sub-01_task-rest_bold.nii.gz" = false
  /\ _confounds2df (ext := example_external)
       (Path "sub-01_task-rest_bold.nii.gz") []
     = (Raise (IndexError "list index out of range"), []).
Proof.
  split; [reflexivity|]. split; [reflexivity|].
  exact (confounds2df_image_without_space (ext := example_external)
           "sub-01_task-rest_bold.nii.gz" [] eq_refl eq_refl).
Defined.

Lemma confounds2df_image_path_witness :
  str_in "space-" "sub-01" = false
  /\ str_in "space-" "MNI152_desc-preproc_bold.nii.gz" = false
  /\ str_in "nii" (last_chars 6 "sub-01_space-MNI152_desc-preproc_bold.nii.gz")
     = true
  /\ _confounds2df (ext := example_external)
       (Path "sub-01_space-MNI152_desc-preproc_bold.nii.gz") []
     = (Ok raw_example, [])
  /\ last_chars 6 accented_image_path = ".nii" +s+ e_acute +s+ e_acute
  /\ _confounds2df (ext := example_external) (Path accented_image_path) []
     = (read_csv (External := example_external)
          "sub_desc-confounds_regressors.tsv", []).
Proof.
  do 3 (split; [reflexivity|]). split.
  - exact (proj1 (confounds2df_image_path (ext := example_external) "sub-01"
                    "MNI152_desc-preproc_bold.nii.gz" [])
             eq_refl eq_refl eq_refl).
  - split; [reflexivity|].
    exact (proj1 (confounds2df_image_path (ext := example_external) "sub"
                    ("X.nii" +s+ e_acute +s+ e_acute) [])
             eq_refl eq_refl eq_refl).
Defined.

(** *** Failing inputs, repeated loads and the empty strategy *)

Section LoadMore.

Context {value : Type} {ext : External value}.
Implicit Types confounds_raw df : DataFrame value.
Implicit Types self : Confounds value.
Implicit Types src : confounds_source value.

Lemma load_single_raise_any_log self src (e : exception) (w : list string) :
  value_of (_load_single self src) [] = Raise e ->
  value_of (_load_single self src) w = Raise e.
Proof.
  intros H. now rewrite (appends_value _ w (appends_load_single self src)).
Qed.

(** X13: a list of inputs is loaded as a whole or not at all: when an
    input fails to load after inputs that load, [load] raises the error of
    that input, whatever comes after it, and returns no table; a single
    input that fails makes [load] raise its error as well. *)
Theorem load_first_failure self (good rest : list (confounds_source value))
    (bad : confounds_source value) (dfs : list (DataFrame value))
    (e : exception) (w : list string) :
  Forall2 (loaded_from self) good dfs ->
  value_of (_load_single self bad) [] = Raise e ->
  value_of (load self (Several (good ++ bad :: rest))) w = Raise e
  /\ value_of (load self (One bad)) w = Raise e.
Proof.
  intros Hgood Hbad. split.
  - unfold value_of. rewrite load_several. unfold bind at 1.
    rewrite for_fold_app. unfold bind at 1.
    pose proof (proj2 (collect_value self good [] w dfs)) as Hcollect.
    unfold value_of in Hcollect.
    destruct (for_fold good [] _ w) as [[acc|e'] w1] eqn:Hfold.
    + cbn [for_fold]. unfold bind at 1. unfold bind at 1.
      pose proof (load_single_raise_any_log self bad e w1 Hbad) as Hw1.
      unfold value_of in Hw1.
      destruct (_load_single self bad w1) as [[df|e'] w2]; simpl in *;
        congruence.
    + simpl in Hcollect. exfalso.
      assert (Raise e' = Ok dfs) as Habs; [|discriminate Habs].
      apply Hcollect. now exists dfs.
  - unfold value_of. rewrite load_one. unfold bind.
    pose proof (load_single_raise_any_log self bad e w Hbad) as Hw.
    unfold value_of in Hw.
    destruct (_load_single self bad w) as [[df|e'] w2]; simpl in *;
      congruence.
Qed.

Lemma appends_load self (arg : load_arg value) : appends (load self arg).
Proof.
  unfold load. destruct (_sanitize_confounds arg) as [srcs flag].
  apply appends_bind.
  - apply appends_for_fold. intros acc file.
    apply appends_bind; [apply appends_load_single|].
    intros df. apply appends_ret.
  - intros out. apply appends_bind; [|intros ?; apply appends_ret].
    destruct flag; [|apply appends_ret].
    destruct out; [apply appends_raise | apply appends_ret].
Qed.

Lemma load_result_instance self (arg : load_arg value) (w : list string)
    self' (out : loaded value) :
  value_of (load self arg) w = Ok (self', out) ->
  self' = set_confounds_ self out.
Proof.
  unfold value_of. destruct arg as [src|srcs].
  - rewrite load_one. unfold bind.
    destruct (_load_single self src w) as [[df|e] w']; simpl;
      [|discriminate].
    now intros [= <- <-].
  - rewrite load_several. unfold bind.
    destruct (for_fold srcs [] _ w) as [[dfs|e] w']; simpl; [|discriminate].
    now intros [= <- <-].
Qed.

Lemma load_set_confounds self (x : loaded value) (arg : load_arg value) :
  load (set_confounds_ self x) arg = load self arg.
Proof. reflexivity. Qed.

(** X14: [load] changes nothing of the instance but [confounds_], and
    what [confounds_] holds plays no part in a later load: loading the same
    input again with the instance that [load] left returns the same tables
    and leaves the same instance. *)
Theorem load_again self (arg : load_arg value) (w : list string)
    self' (out : loaded value) :
  value_of (load self arg) w = Ok (self', out) ->
  strategy self' = strategy self
  /\ motion self' = motion self /\ n_motion self' = n_motion self
  /\ wm_csf self' = wm_csf self /\ global_signal self' = global_signal self
  /\ compcor self' = compcor self /\ n_compcor self' = n_compcor self
  /\ confounds_ self' = Some out
  /\ forall w', value_of (load self' arg) w' = Ok (self', out).
Proof.
  intros Hload. pose proof (load_result_instance _ _ _ _ _ Hload) as ->.
  repeat (split; [reflexivity|]).
  intros w'. rewrite load_set_confounds.
  rewrite (appends_value _ w' (appends_load self arg)).
  now rewrite <- (appends_value _ w (appends_load self arg)).
Qed.

(** X15: with an empty strategy, which the constructor accepts,
    [_load_single] still converts its input, reading the file of a path,
    and then returns the empty table: no column and no row, whatever the
    input holds. *)
Theorem load_single_empty_strategy self src (w : list string) :
  strategy self = [] ->
  _load_single self src w
  = (_ <- _confounds2df src ;; ret empty_frame) w
  /\ (forall confounds_raw,
        src = Frame confounds_raw ->
        _load_single self src w = (Ok empty_frame, w))
  /\ columns (@empty_frame value) = [] /\ nrows (@empty_frame value) = 0.
Proof.
  intros Hs.
  assert (_load_single self src w
          = (_ <- _confounds2df src ;; ret empty_frame) w) as Heq.
  { unfold _load_single. rewrite Hs. cbn [in_atoms existsb]. unfold bind.
    destruct (_confounds2df src w) as [[raw|e] w']; reflexivity. }
  split; [exact Heq|]. split; [|split; reflexivity].
  intros confounds_raw ->. rewrite Heq. reflexivity.
Qed.

End LoadMore.

Lemma load_first_failure_witness :
  Forall2 (loaded_from (ext := example_external) confounds_6P)
          [Frame raw_example] [selected_6P]
  /\ value_of (_load_single (ext := example_external) confounds_6P
                            (Path "missing.tsv")) []
     = Raise (OSError "No such file or directory")
  /\ value_of (load (ext := example_external) confounds_6P
                 (Several ([Frame raw_example]
                           ++ Path "missing.tsv" :: [Frame raw_example]))) []
     = Raise (OSError "No such file or directory")
  /\ value_of (load (ext := example_external) confounds_6P
                    (One (Path "missing.tsv"))) []
     = Raise (OSError "No such file or directory").
Proof.
  assert (Forall2 (loaded_from (ext := example_external) confounds_6P)
                  [Frame raw_example] [selected_6P]) as Hgood
    by (repeat constructor).
  split; [exact Hgood|]. split; [reflexivity|].
  exact (load_first_failure (ext := example_external) confounds_6P
           [Frame raw_example] [Frame raw_example] (Path "missing.tsv")
           [selected_6P] (OSError "No such file or directory") []
           Hgood eq_refl).
Defined.

Lemma load_again_witness :
  value_of (load (ext := example_external) confounds_6P
                 (One (Frame raw_example))) []
  = Ok (set_confounds_ confounds_6P (Table selected_6P), Table selected_6P)
  /\ forall w',
       value_of (load (ext := example_external)
                   (set_confounds_ confounds_6P (Table selected_6P))
                   (One (Frame raw_example))) w'
       = Ok (set_confounds_ confounds_6P (Table selected_6P),
             Table selected_6P).
Proof.
  split; [reflexivity|].
  apply (load_again (ext := example_external) confounds_6P
           (One (Frame raw_example)) []
           (set_confounds_ confounds_6P (Table selected_6P))
           (Table selected_6P) eq_refl).
Defined.

Lemma load_single_empty_strategy_witness :
  strategy (with_strategy confounds_6P []) = []
  /\ _load_single (ext := example_external) (with_strategy confounds_6P [])
                  (Frame raw_example) []
     = (Ok empty_frame, [])
  /\ _load_single (ext := example_external) (with_strategy confounds_6P [])
                  (Path "missing.tsv") []
     = (Raise (OSError "No such file or directory"), []).
Proof.
  split; [reflexivity|].
  destruct (load_single_empty_strategy (ext := example_external)
              (with_strategy confounds_6P []) (Frame raw_example) [] eq_refl)
    as [_ [Hframe _]].
  split; [exact (Hframe raw_example eq_refl)|].
  exact (proj1 (load_single_empty_strategy (ext := example_external)
                  (with_strategy confounds_6P []) (Path "missing.tsv") []
                  eq_refl)).
Defined.

(** *** The columns of the result without motion reduction *)

Section Columns.

Context {value : Type} {ext : External value}.
Implicit Types confounds_raw out df : DataFrame value.
Implicit Types self : Confounds value.

Lemma check_select_value confounds_raw (params : list string) out :
  value_of (_check_params confounds_raw params ;;;
            getitem confounds_raw params) [] = Ok out
  <-> (forall par, In par params -> In par (columns confounds_raw))
      /\ out = selection confounds_raw params.
Proof.
  unfold value_of. rewrite check_getitem. cbn [fst].
  rewrite <- find_absent_none.
  destruct (find (absent confounds_raw) params); split.
  - discriminate.
  - intros [H _]. discriminate H.
  - intros [= <-]. now split.
  - intros [_ ->]. reflexivity.
Qed.

Lemma loads_motion confounds_raw (motion : string) (n_motion : Q) out :
  ~ (0 < n_motion)%Q ->
  loads ("motion", _load_motion confounds_raw motion n_motion) out
  <-> (forall par, In par (_add_suffix motion_bases motion) ->
                   In par (columns confounds_raw))
      /\ out = selection confounds_raw (_add_suffix motion_bases motion).
Proof.
  intros Hn. rewrite <- check_select_value. unfold loads, value_of. cbn [snd].
  unfold _load_motion. fold motion_bases.
  destruct (Qlt_le_dec 0 n_motion) as [Hlt|_]; [contradiction|].
  unfold bind.
  destruct (_check_params confounds_raw (_add_suffix motion_bases motion) [])
    as [[[]|e] w1]; [|reflexivity].
  destruct (getitem confounds_raw (_add_suffix motion_bases motion) w1)
    as [[df|e] w2]; reflexivity.
Qed.

Lemma loads_wm_csf confounds_raw (wm_csf : string) out :
  loads ("wm_csf", _load_wm_csf confounds_raw wm_csf) out
  <-> (forall par, In par (_add_suffix ["csf"; "white_matter"] wm_csf) ->
                   In par (columns confounds_raw))
      /\ out = selection confounds_raw
                 (_add_suffix ["csf"; "white_matter"] wm_csf).
Proof. apply check_select_value. Qed.

Lemma loads_global confounds_raw (global_signal : string) out :
  loads ("global", _load_global confounds_raw global_signal) out
  <-> (forall par, In par (_add_suffix ["global_signal"] global_signal) ->
                   In par (columns confounds_raw))
      /\ out = selection confounds_raw
                 (_add_suffix ["global_signal"] global_signal).
Proof. apply check_select_value. Qed.

Lemma loads_high_pass confounds_raw out :
  loads ("high_pass", _load_high_pass confounds_raw) out
  <-> (exists col, In col (columns confounds_raw)
                   /\ substring_of "cosine" col)
      /\ out = selection confounds_raw
                 (filter (str_in "cosine") (columns confounds_raw)).
Proof.
  unfold loads, value_of. cbn [snd]. rewrite load_high_pass_eq. cbn [fst].
  rewrite <- (unmatched_false confounds_raw "cosine"). unfold unmatched.
  destruct (existsb (str_in "cosine") (columns confounds_raw)); simpl; split.
  - intros [= <-]. now split.
  - intros [_ ->]. reflexivity.
  - discriminate.
  - intros [H _]. discriminate H.
Qed.

Lemma loads_compcor confounds_raw (compcor : string) (n_compcor : Z) out :
  loads ("compcor", _load_compcor confounds_raw compcor n_compcor) out
  <-> (compcor = "anat" \/ compcor = "temp" \/ compcor = "full")
      /\ out = selection confounds_raw
                 (sort (filter (fun c => mem c (columns confounds_raw))
                               (variant_candidates compcor n_compcor))).
Proof.
  unfold loads, value_of. cbn [snd]. split.
  - intros Hload.
    destruct (String.eqb_spec compcor "anat") as [Ha|Ha];
      [|destruct (String.eqb_spec compcor "temp") as [Ht|Ht];
        [|destruct (String.eqb_spec compcor "full") as [Hf|Hf]]].
    + rewrite load_compcor_known_eq in Hload by tauto.
      injection Hload as <-. tauto.
    + rewrite load_compcor_known_eq in Hload by tauto.
      injection Hload as <-. tauto.
    + rewrite load_compcor_known_eq in Hload by tauto.
      injection Hload as <-. tauto.
    + rewrite load_compcor_unbound in Hload by assumption.
      discriminate Hload.
  - intros [Hknown ->]. now rewrite load_compcor_known_eq.
Qed.

Lemma nrows_fold_concat (outs : list (DataFrame value)) acc (n : nat) :
  Forall (fun out => nrows out = n) outs ->
  nrows acc = n \/ (nrows acc = 0 /\ outs <> []) ->
  nrows (fold_left concat_axis1 outs acc) = n.
Proof.
  intros Houts. revert acc.
  induction Houts as [|out outs Hn _ IH]; intros acc Hacc; simpl.
  - destruct Hacc as [H | [_ H]]; [exact H | congruence].
  - apply IH. left. unfold concat_axis1. cbn [nrows].
    destruct Hacc as [H | [H _]]; rewrite H, Hn; lia.
Qed.

Lemma load_single_without_reduction self confounds_raw (w : list string) :
  NoDup (columns confounds_raw) ->
  in_atoms "motion" (strategy self) = false \/ ~ (0 < n_motion self)%Q ->
  ((exists df, value_of (_load_single self (Frame confounds_raw)) w = Ok df)
   <-> loadable self confounds_raw)
  /\ (forall df,
        value_of (_load_single self (Frame confounds_raw)) w = Ok df ->
        columns df = expected_columns self confounds_raw
        /\ (active_loaders self confounds_raw <> [] ->
            nrows df = nrows confounds_raw)).
Proof.
  intros Hnd Hn.
  assert (forall df,
    value_of (_load_single self (Frame confounds_raw)) w = Ok df
    <-> exists outs, Forall2 loads (active_loaders self confounds_raw) outs
                     /\ df = fold_left concat_axis1 outs empty_frame) as Hfold.
  { intros df. unfold value_of. rewrite load_single_fold.
    apply fold_concat_value, appends_active_loaders. }
  assert (in_atoms "motion" (strategy self) = true ->
          forall out,
            loads ("motion",
                   _load_motion confounds_raw (motion self) (n_motion self))
                  out
            <-> (forall par, In par (_add_suffix motion_bases (motion self)) ->
                             In par (columns confounds_raw))
                /\ out = selection confounds_raw
                           (_add_suffix motion_bases (motion self))) as Hm.
  { intros Hact out. apply loads_motion.
    destruct Hn as [Hoff | Hn]; [congruence | exact Hn]. }
  clear Hn.
  pose proof (loads_high_pass confounds_raw) as Hh.
  pose proof (loads_wm_csf confounds_raw (wm_csf self)) as Hw.
  pose proof (loads_global confounds_raw (global_signal self)) as Hg.
  pose proof (loads_compcor confounds_raw (compcor self) (n_compcor self))
    as Hc.
  split.
  - split.
    + intros [df Hdf]. apply Hfold in Hdf. destruct Hdf as [outs [Hall _]].
      revert Hm Hall. unfold loadable, active_loaders, category_loaders.
      cbn [filter fst].
      destruct (in_atoms "motion" (strategy self)),
               (in_atoms "high_pass" (strategy self)),
               (in_atoms "wm_csf" (strategy self)),
               (in_atoms "global" (strategy self)),
               (in_atoms "compcor" (strategy self));
        intros Hm Hall;
        repeat match goal with
        | H : Forall2 _ (_ :: _) _ |- _ => inversion H; subst; clear H
        | H : Forall2 _ [] _ |- _ => inversion H; subst; clear H
        | H : loads ("motion", _) _ |- _ =>
            apply (Hm eq_refl) in H; destruct H
        | H : loads ("high_pass", _) _ |- _ => apply Hh in H; destruct H
        | H : loads ("wm_csf", _) _ |- _ => apply Hw in H; destruct H
        | H : loads ("global", _) _ |- _ => apply Hg in H; destruct H
        | H : loads ("compcor", _) _ |- _ => apply Hc in H; destruct H
        end;
        repeat match goal with |- _ /\ _ => split end;
        intros Hact; try discriminate Hact; auto.
    + intros [Lm [Lh [Lw [Lg Lc]]]].
      assert (exists outs,
                Forall2 loads (active_loaders self confounds_raw) outs)
        as [outs Hall].
      { revert Hm Lm Lh Lw Lg Lc.
        unfold active_loaders, category_loaders. cbn [filter fst].
        destruct (in_atoms "motion" (strategy self)),
                 (in_atoms "high_pass" (strategy self)),
                 (in_atoms "wm_csf" (strategy self)),
                 (in_atoms "global" (strategy self)),
                 (in_atoms "compcor" (strategy self));
          intros Hm Lm Lh Lw Lg Lc; eexists;
          repeat first
            [ apply Forall2_nil
            | apply Forall2_cons;
                [ first [ apply (Hm eq_refl) | apply Hh | apply Hw | apply Hg
                        | apply Hc ];
                  split; [auto | reflexivity] | ] ]. }
      eexists. apply Hfold. exists outs. split; [exact Hall | reflexivity].
  - intros df Hdf. apply Hfold in Hdf. destruct Hdf as [outs [Hall ->]].
    rewrite columns_fold_concat. revert Hm Hall.
    unfold expected_columns, active_loaders, category_loaders.
    cbn [filter fst].
    destruct (in_atoms "motion" (strategy self)),
             (in_atoms "high_pass" (strategy self)),
             (in_atoms "wm_csf" (strategy self)),
             (in_atoms "global" (strategy self)),
             (in_atoms "compcor" (strategy self));
      intros Hm Hall;
      repeat match goal with
      | H : Forall2 _ (_ :: _) _ |- _ => inversion H; subst; clear H
      | H : Forall2 _ [] _ |- _ => inversion H; subst; clear H
      | H : loads ("motion", _) _ |- _ =>
          apply (Hm eq_refl) in H; destruct H as [? ->]
      | H : loads ("high_pass", _) _ |- _ =>
          apply Hh in H; destruct H as [? ->]
      | H : loads ("wm_csf", _) _ |- _ =>
          apply Hw in H; destruct H as [? ->]
      | H : loads ("global", _) _ |- _ =>
          apply Hg in H; destruct H as [? ->]
      | H : loads ("compcor", _) _ |- _ =>
          apply Hc in H; destruct H as [? ->]
      end;
      split.
    all: try (intros Hne; congruence).
    all: try (intros Hne;
              match goal with
              | |- nrows (fold_left concat_axis1 ?outs ?acc) = ?n =>
                  apply (nrows_fold_concat outs acc n)
              end;
              [ solve [repeat constructor]
              | right; split; [reflexivity | discriminate] ]).
    all: cbn [flat_map]; rewrite ?app_nil_r, ?selection_columns;
      try assumption.
    all: try match goal with
             | |- _ = _ =>
                 change (columns (@empty_frame value)) with (@nil string);
                 rewrite ?app_nil_l, ?app_nil_r; reflexivity
             end.
    all: try (intros par Hin; apply filter_In in Hin; tauto).
    all: intros par Hin;
      apply (Permutation_in _ (sort_permutation _)) in Hin;
      apply filter_In in Hin; destruct Hin as [_ Hin]; now apply mem_In.
Qed.

(** X16: when motion is not reduced (no motion category, or a target
    count that is not positive), on a table whose column names do not
    repeat, [_load_single] returns a table exactly when the table has what
    the active categories need; the column names of that table are then the
    motion names, the cosine names, the tissue names, the global names and
    the component names of the active categories, in this order, and it
    has the rows of the input as soon as one category is active. *)
Theorem load_single_columns self confounds_raw (w : list string) :
  NoDup (columns confounds_raw) ->
  in_atoms "motion" (strategy self) = false \/ ~ (0 < n_motion self)%Q ->
  ((exists df, value_of (_load_single self (Frame confounds_raw)) w = Ok df)
   <-> loadable self confounds_raw)
  /\ (forall df,
        value_of (_load_single self (Frame confounds_raw)) w = Ok df ->
        columns df = expected_columns self confounds_raw
        /\ (active_loaders self confounds_raw <> [] ->
            nrows df = nrows confounds_raw)).
Proof.
  intros Hnd Hn.
  destruct (load_single_without_reduction self confounds_raw w Hnd Hn)
    as [Hiff Hcols].
  split; [exact Hiff | exact Hcols].
Qed.

(** *** The presets *)

Lemma preset_columns self confounds_raw (w : list string)
    (required : list string) :
  NoDup (columns confounds_raw) ->
  in_atoms "motion" (strategy self) = false \/ ~ (0 < n_motion self)%Q ->
  in_atoms "high_pass" (strategy self) = true ->
  in_atoms "compcor" (strategy self) = false ->
  (in_atoms "motion" (strategy self) = true ->
   incl (_add_suffix motion_bases (motion self)) required) ->
  (in_atoms "wm_csf" (strategy self) = true ->
   incl (_add_suffix ["csf"; "white_matter"] (wm_csf self)) required) ->
  (in_atoms "global" (strategy self) = true ->
   incl (_add_suffix ["global_signal"] (global_signal self)) required) ->
  (forall par, In par required -> In par (columns confounds_raw)) ->
  (exists col, In col (columns confounds_raw) /\ substring_of "cosine" col) ->
  exists df,
    value_of (_load_single self (Frame confounds_raw)) w = Ok df
    /\ columns df = expected_columns self confounds_raw
    /\ nrows df = nrows confounds_raw.
Proof.
  intros Hnd Hn Hhp Hcc Hm Hw Hg Hreq Hcos.
  destruct (load_single_without_reduction self confounds_raw w Hnd Hn)
    as [Hiff Hcols].
  assert (loadable self confounds_raw) as Hload.
  { unfold loadable. repeat split.
    - intros Hact par Hin. now apply Hreq, (Hm Hact).
    - intros _. exact Hcos.
    - intros Hact par Hin. now apply Hreq, (Hw Hact).
    - intros Hact par Hin. now apply Hreq, (Hg Hact).
    - intros Hact. congruence. }
  apply Hiff in Hload. destruct Hload as [df Hdf].
  exists df. split; [exact Hdf|].
  destruct (Hcols df Hdf) as [Hc Hrows]. split; [exact Hc|].
  apply Hrows. unfold active_loaders, category_loaders. cbn [filter fst].
  rewrite Hhp. destruct (in_atoms "motion" (strategy self)); discriminate.
Qed.

(** X17: the preset 2P on a table with [csf], [white_matter] and a cosine
    column, its column names not repeated, returns the cosine columns and
    then the two tissue columns, whatever the attributes that the preset
    leaves unset. *)
Theorem P2_columns (blank : Confounds value) confounds_raw (w : list string) :
  let cosines := filter (str_in "cosine") (columns confounds_raw) in
  NoDup (columns confounds_raw) ->
  (forall par, In par ["csf"; "white_matter"] ->
               In par (columns confounds_raw)) ->
  (exists col, In col (columns confounds_raw) /\ substring_of "cosine" col) ->
  exists df,
    value_of (_load_single (P2 blank) (Frame confounds_raw)) w = Ok df
    /\ columns df = cosines ++ ["csf"; "white_matter"]
    /\ length (columns df) = 2 + length cosines
    /\ nrows df = nrows confounds_raw.
Proof.
  intros cosines Hnd Hreq Hcos.
  destruct (preset_columns (P2 blank) confounds_raw w ["csf"; "white_matter"]
              Hnd) as [df [Hdf [Hc Hrows]]];
    try reflexivity; try assumption; try discriminate.
  - now left.
  - intros _ par Hin. exact Hin.
  - exists df. split; [exact Hdf|].
    assert (columns df = cosines ++ ["csf"; "white_matter"]) as Hcols.
    { rewrite Hc. unfold expected_columns. cbn [strategy P2 in_atoms existsb
        atom_eq_str String.eqb Ascii.eqb Bool.eqb andb orb wm_csf].
      now rewrite app_nil_r. }
    split; [exact Hcols|]. split; [|exact Hrows].
    rewrite Hcols, length_app. simpl. lia.
Qed.

Ltac preset_expected :=
  unfold expected_columns;
  cbn [strategy P6 P9 P24 P36 in_atoms existsb atom_eq_str String.eqb
       Ascii.eqb Bool.eqb andb orb motion wm_csf global_signal];
  rewrite ?app_nil_r.

(** X18: the preset 6P on a table with the six motion columns and a
    cosine column, its column names not repeated, returns the six motion
    columns and then the cosine columns. *)
Theorem P6_columns (blank : Confounds value) confounds_raw (w : list string) :
  let cosines := filter (str_in "cosine") (columns confounds_raw) in
  NoDup (columns confounds_raw) ->
  (forall par, In par motion_bases -> In par (columns confounds_raw)) ->
  (exists col, In col (columns confounds_raw) /\ substring_of "cosine" col) ->
  exists df,
    value_of (_load_single (P6 blank) (Frame confounds_raw)) w = Ok df
    /\ columns df = motion_bases ++ cosines
    /\ length (columns df) = 6 + length cosines
    /\ nrows df = nrows confounds_raw.
Proof.
  intros cosines Hnd Hreq Hcos.
  destruct (preset_columns (P6 blank) confounds_raw w motion_bases Hnd)
    as [df [Hdf [Hc Hrows]]];
    try reflexivity; try assumption; try discriminate.
  - right. intros H. discriminate H.
  - intros _ par Hin. exact Hin.
  - exists df. split; [exact Hdf|].
    assert (columns df = motion_bases ++ cosines) as Hcols.
    { rewrite Hc. preset_expected. reflexivity. }
    split; [exact Hcols|]. split; [|exact Hrows].
    rewrite Hcols, length_app. simpl. lia.
Qed.

(** X19: the preset 9P on a table with the six motion columns, [csf],
    [white_matter], [global_signal] and a cosine column, its column names
    not repeated, returns the six motion columns, the cosine columns, the
    two tissue columns and the global signal: nine columns besides the
    cosines. *)
Theorem P9_columns (blank : Confounds value) confounds_raw (w : list string) :
  let cosines := filter (str_in "cosine") (columns confounds_raw) in
  NoDup (columns confounds_raw) ->
  (forall par, In par (motion_bases
                       ++ ["csf"; "white_matter"; "global_signal"]) ->
               In par (columns confounds_raw)) ->
  (exists col, In col (columns confounds_raw) /\ substring_of "cosine" col) ->
  exists df,
    value_of (_load_single (P9 blank) (Frame confounds_raw)) w = Ok df
    /\ columns df
       = motion_bases ++ cosines ++ ["csf"; "white_matter"; "global_signal"]
    /\ length (columns df) = 9 + length cosines
    /\ nrows df = nrows confounds_raw.
Proof.
  intros cosines Hnd Hreq Hcos.
  destruct (preset_columns (P9 blank) confounds_raw w
              (motion_bases ++ ["csf"; "white_matter"; "global_signal"]) Hnd)
    as [df [Hdf [Hc Hrows]]];
    try reflexivity; try assumption; try discriminate.
  - right. intros H. discriminate H.
  - intros _ par Hin. simpl in *. tauto.
  - intros _ par Hin. simpl in *. tauto.
  - intros _ par Hin. simpl in *. tauto.
  - exists df. split; [exact Hdf|].
    assert (columns df
            = motion_bases ++ cosines
              ++ ["csf"; "white_matter"; "global_signal"]) as Hcols.
    { rewrite Hc. preset_expected. reflexivity. }
    split; [exact Hcols|]. split; [|exact Hrows].
    rewrite Hcols, !length_app. simpl. lia.
Qed.

(** X20: the preset 24P on a table with the 24 names of the full
    expansion of the motion parameters and a cosine column, its column
    names not repeated, returns those 24 columns and then the cosine
    columns. *)
Theorem P24_columns (blank : Confounds value) confounds_raw (w : list string) :
  let cosines := filter (str_in "cosine") (columns confounds_raw) in
  NoDup (columns confounds_raw) ->
  (forall par, In par (_add_suffix motion_bases "full") ->
               In par (columns confounds_raw)) ->
  (exists col, In col (columns confounds_raw) /\ substring_of "cosine" col) ->
  exists df,
    value_of (_load_single (P24 blank) (Frame confounds_raw)) w = Ok df
    /\ columns df = _add_suffix motion_bases "full" ++ cosines
    /\ length (columns df) = 24 + length cosines
    /\ nrows df = nrows confounds_raw.
Proof.
  intros cosines Hnd Hreq Hcos.
  destruct (preset_columns (P24 blank) confounds_raw w
              (_add_suffix motion_bases "full") Hnd)
    as [df [Hdf [Hc Hrows]]];
    try reflexivity; try assumption; try discriminate.
  - right. intros H. discriminate H.
  - intros _ par Hin. exact Hin.
  - exists df. split; [exact Hdf|].
    assert (columns df = _add_suffix motion_bases "full" ++ cosines)
      as Hcols.
    { rewrite Hc. preset_expected. reflexivity. }
    split; [exact Hcols|]. split; [|exact Hrows].
    rewrite Hcols, length_app, add_suffix_count. reflexivity.
Qed.

(** X21: the preset 36P on a table with the names of the full expansions
    of the motion parameters, of [csf] and [white_matter] and of
    [global_signal], and a cosine column, its column names not repeated,
    returns the 24 motion columns, the cosine columns, the 8 tissue columns
    and the 4 global columns: 36 columns besides the cosines. *)
Theorem P36_columns (blank : Confounds value) confounds_raw (w : list string) :
  let cosines := filter (str_in "cosine") (columns confounds_raw) in
  let required :=
    _add_suffix motion_bases "full"
    ++ _add_suffix ["csf"; "white_matter"] "full"
    ++ _add_suffix ["global_signal"] "full" in
  NoDup (columns confounds_raw) ->
  (forall par, In par required -> In par (columns confounds_raw)) ->
  (exists col, In col (columns confounds_raw) /\ substring_of "cosine" col) ->
  exists df,
    value_of (_load_single (P36 blank) (Frame confounds_raw)) w = Ok df
    /\ columns df
       = _add_suffix motion_bases "full" ++ cosines
         ++ _add_suffix ["csf"; "white_matter"] "full"
         ++ _add_suffix ["global_signal"] "full"
    /\ length (columns df) = 36 + length cosines
    /\ nrows df = nrows confounds_raw.
Proof.
  intros cosines required Hnd Hreq Hcos.
  destruct (preset_columns (P36 blank) confounds_raw w required Hnd)
    as [df [Hdf [Hc Hrows]]];
    try reflexivity; try assumption; try discriminate.
  - right. intros H. discriminate H.
  - intros _ par Hin. unfold required. apply in_or_app. now left.
  - intros _ par Hin. unfold required. apply in_or_app. right.
    apply in_or_app. now left.
  - intros _ par Hin. unfold required. apply in_or_app. right.
    apply in_or_app. now right.
  - exists df. split; [exact Hdf|].
    assert (columns df
            = _add_suffix motion_bases "full" ++ cosines
              ++ _add_suffix ["csf"; "white_matter"] "full"
              ++ _add_suffix ["global_signal"] "full") as Hcols.
    { rewrite Hc. preset_expected. reflexivity. }
    split; [exact Hcols|]. split; [|exact Hrows].
    rewrite Hcols, !length_app, !add_suffix_count. simpl. lia.
Qed.

End Columns.

(** *** The columns of the result on examples *)

Lemma distinct_NoDup (names : list string) :
  distinct names = true -> NoDup names.
Proof.
  induction names as [|name rest IH]; simpl; intros H; constructor.
  - apply andb_prop in H. destruct H as [H _].
    apply negb_true_iff in H. now apply mem_not_In.
  - apply IH. apply andb_prop in H. tauto.
Qed.

Lemma mem_all_In (names cols : list string) :
  forallb (fun par => mem par cols) names = true ->
  forall par, In par names -> In par cols.
Proof.
  intros H par Hin. rewrite forallb_forall in H. now apply mem_In, H.
Qed.

Lemma cosine00_is_cosine (cols : list string) :
  In "cosine00" cols ->
  exists col, In col cols /\ substring_of "cosine" col.
Proof.
  intros Hin. exists "cosine00". split; [exact Hin|].
  now apply str_in_spec.
Qed.

Lemma raw_example_distinct : NoDup (columns raw_example).
Proof. now apply distinct_NoDup. Qed.

Lemma raw_full_distinct : NoDup (columns raw_full).
Proof. now apply distinct_NoDup. Qed.

Lemma raw_example_cosine :
  exists col, In col (columns raw_example) /\ substring_of "cosine" col.
Proof. apply cosine00_is_cosine, mem_In. reflexivity. Qed.

Lemma raw_full_cosine :
  exists col, In col (columns raw_full) /\ substring_of "cosine" col.
Proof. apply cosine00_is_cosine, mem_In. reflexivity. Qed.

Lemma load_single_columns_witness :
  NoDup (columns raw_example)
  /\ (in_atoms "motion" (strategy confounds_6P) = false
      \/ ~ (0 < n_motion confounds_6P)%Q)
  /\ loadable confounds_6P raw_example
  /\ columns selected_6P = expected_columns confounds_6P raw_example
  /\ nrows selected_6P = nrows raw_example.
Proof.
  assert (in_atoms "motion" (strategy confounds_6P) = false
          \/ ~ (0 < n_motion confounds_6P)%Q) as Hn
    by (right; intros H; discriminate H).
  destruct (load_single_columns (ext := example_external) confounds_6P
              raw_example [] raw_example_distinct Hn) as [Hiff Hcols].
  split; [exact raw_example_distinct|]. split; [exact Hn|]. split.
  - apply Hiff. exists selected_6P. reflexivity.
  - destruct (Hcols selected_6P eq_refl) as [Hc Hrows].
    split; [exact Hc|]. apply Hrows. discriminate.
Defined.

Lemma P2_columns_witness :
  NoDup (columns raw_example)
  /\ (forall par, In par ["csf"; "white_matter"]
                  -> In par (columns raw_example))
  /\ (exists col, In col (columns raw_example) /\ substring_of "cosine" col)
  /\ exists df,
       value_of (_load_single (ext := example_external) (P2 confounds_bogus)
                              (Frame raw_example)) [] = Ok df
       /\ columns df = ["cosine00"; "cosine01"] ++ ["csf"; "white_matter"]
       /\ length (columns df) = 2 + 2
       /\ nrows df = 3.
Proof.
  assert (forall par, In par ["csf"; "white_matter"]
                      -> In par (columns raw_example)) as Hreq
    by (now apply mem_all_In).
  split; [exact raw_example_distinct|]. split; [exact Hreq|].
  split; [exact raw_example_cosine|].
  exact (P2_columns (ext := example_external) confounds_bogus raw_example []
           raw_example_distinct Hreq raw_example_cosine).
Defined.

Lemma P6_columns_witness :
  NoDup (columns raw_example)
  /\ (forall par, In par motion_bases -> In par (columns raw_example))
  /\ (exists col, In col (columns raw_example) /\ substring_of "cosine" col)
  /\ exists df,
       value_of (_load_single (ext := example_external) (P6 confounds_bogus)
                              (Frame raw_example)) [] = Ok df
       /\ columns df = motion_bases ++ ["cosine00"; "cosine01"]
       /\ length (columns df) = 6 + 2
       /\ nrows df = 3.
Proof.
  assert (forall par, In par motion_bases -> In par (columns raw_example))
    as Hreq by (now apply mem_all_In).
  split; [exact raw_example_distinct|]. split; [exact Hreq|].
  split; [exact raw_example_cosine|].
  exact (P6_columns (ext := example_external) confounds_bogus raw_example []
           raw_example_distinct Hreq raw_example_cosine).
Defined.

Lemma P9_columns_witness :
  NoDup (columns raw_example)
  /\ (forall par, In par (motion_bases
                          ++ ["csf"; "white_matter"; "global_signal"])
                  -> In par (columns raw_example))
  /\ (exists col, In col (columns raw_example) /\ substring_of "cosine" col)
  /\ exists df,
       value_of (_load_single (ext := example_external) (P9 confounds_bogus)
                              (Frame raw_example)) [] = Ok df
       /\ columns df
          = motion_bases ++ ["cosine00"; "cosine01"]
            ++ ["csf"; "white_matter"; "global_signal"]
       /\ length (columns df) = 9 + 2
       /\ nrows df = 3.
Proof.
  assert (forall par, In par (motion_bases
                              ++ ["csf"; "white_matter"; "global_signal"])
                      -> In par (columns raw_example)) as Hreq
    by (now apply mem_all_In).
  split; [exact raw_example_distinct|]. split; [exact Hreq|].
  split; [exact raw_example_cosine|].
  exact (P9_columns (ext := example_external) confounds_bogus raw_example []
           raw_example_distinct Hreq raw_example_cosine).
Defined.

Lemma P24_columns_witness :
  NoDup (columns raw_full)
  /\ (forall par, In par (_add_suffix motion_bases "full")
                  -> In par (columns raw_full))
  /\ (exists col, In col (columns raw_full) /\ substring_of "cosine" col)
  /\ exists df,
       value_of (_load_single (ext := example_external) (P24 confounds_bogus)
                              (Frame raw_full)) [] = Ok df
       /\ columns df
          = _add_suffix motion_bases "full" ++ ["cosine00"; "cosine01"]
       /\ length (columns df) = 24 + 2
       /\ nrows df = 3.
Proof.
  assert (forall par, In par (_add_suffix motion_bases "full")
                      -> In par (columns raw_full)) as Hreq
    by (now apply mem_all_In).
  split; [exact raw_full_distinct|]. split; [exact Hreq|].
  split; [exact raw_full_cosine|].
  exact (P24_columns (ext := example_external) confounds_bogus raw_full []
           raw_full_distinct Hreq raw_full_cosine).
Defined.

Lemma P36_columns_witness :
  NoDup (columns raw_full)
  /\ (forall par,
        In par (_add_suffix motion_bases "full"
                ++ _add_suffix ["csf"; "white_matter"] "full"
                ++ _add_suffix ["global_signal"] "full")
        -> In par (columns raw_full))
  /\ (exists col, In col (columns raw_full) /\ substring_of "cosine" col)
  /\ exists df,
       value_of (_load_single (ext := example_external) (P36 confounds_bogus)
                              (Frame raw_full)) [] = Ok df
       /\ columns df
          = _add_suffix motion_bases "full" ++ ["cosine00"; "cosine01"]
            ++ _add_suffix ["csf"; "white_matter"] "full"
            ++ _add_suffix ["global_signal"] "full"
       /\ length (columns df) = 36 + 2
       /\ nrows df = 3.
Proof.
  assert (forall par,
            In par (_add_suffix motion_bases "full"
                    ++ _add_suffix ["csf"; "white_matter"] "full"
                    ++ _add_suffix ["global_signal"] "full")
            -> In par (columns raw_full)) as Hreq
    by (now apply mem_all_In).
  split; [exact raw_full_distinct|]. split; [exact Hreq|].
  split; [exact raw_full_cosine|].
  exact (P36_columns (ext := example_external) confounds_bogus raw_full []
           raw_full_distinct Hreq raw_full_cosine).
Defined.

(** *** The names of the result are distinct *)

Lemma has_char_app (c : ascii) (a b : string) :
  has_char c (a +s+ b) = (has_char c a || has_char c b)%bool.
Proof.
  induction a as [|x a IH]; simpl; [reflexivity|].
  now rewrite IH, orb_assoc.
Qed.

Lemma has_char_substring (c : ascii) (key s : string) :
  str_in key s = true -> has_char c key = true -> has_char c s = true.
Proof.
  intros Hin Hc. apply str_in_spec in Hin.
  destruct Hin as [before [after ->]].
  rewrite !has_char_app, Hc. now rewrite orb_true_r.
Qed.

Lemma digits_no_s (d : uint) :
  has_char "s" (NilEmpty.string_of_uint d) = false.
Proof. induction d; simpl; assumption || reflexivity. Qed.

Lemma str_no_s (nn : Z) : (0 <= nn)%Z -> has_char "s" (str nn) = false.
Proof.
  intros Hnn. destruct nn as [|p|p]; [reflexivity | | lia].
  unfold str. simpl Z.to_int. unfold NilZero.string_of_int.
  unfold NilZero.string_of_uint.
  destruct (Pos.to_uint p) eqn:Hd; try reflexivity;
    rewrite <- Hd; apply digits_no_s.
Qed.

Lemma zero_padded2_no_s (nn : Z) :
  (0 <= nn)%Z -> has_char "s" (zero_padded2 nn) = false.
Proof.
  intros Hnn. unfold zero_padded2.
  destruct (nn <? 10)%Z; [rewrite has_char_app; simpl|]; now apply str_no_s.
Qed.

Lemma parse_index_str (nn : Z) :
  (0 < nn)%Z -> parse_index (str nn) = Some nn.
Proof.
  intros Hnn. unfold parse_index, str.
  rewrite NilZero.isi.
  - simpl. now rewrite DecimalZ.of_to.
  - destruct nn as [|p|p]; try lia. simpl. intros [= H].
    exact (DecimalPos.Unsigned.to_uint_nonnil p H).
  - destruct nn as [|p|p]; try lia. discriminate.
Qed.

Lemma parse_index_padded (nn : Z) :
  (0 <= nn)%Z -> parse_index (zero_padded2 nn) = Some nn.
Proof.
  intros Hnn. unfold zero_padded2.
  destruct (nn <? 10)%Z eqn:Hlt.
  - apply Z.ltb_lt in Hlt.
    assert (nn = 0 \/ nn = 1 \/ nn = 2 \/ nn = 3 \/ nn = 4 \/ nn = 5
            \/ nn = 6 \/ nn = 7 \/ nn = 8 \/ nn = 9)%Z as Hcases by lia.
    repeat (destruct Hcases as [-> | Hcases]; [reflexivity|]).
    subst nn. reflexivity.
  - apply Z.ltb_ge in Hlt. apply parse_index_str. lia.
Qed.

Lemma append_cancel_l (a x y : string) : a +s+ x = a +s+ y -> x = y.
Proof.
  induction a as [|c a IH]; simpl; [trivial|].
  intros [= H]. now apply IH.
Qed.

Lemma range_NoDup (n : Z) : NoDup (range n).
Proof.
  unfold range. apply NoDup_map_NoDup_ForallPairs; [|apply seq_NoDup].
  intros x y _ _ H. lia.
Qed.

Lemma compcor_candidates_NoDup (prefix : string) (N : Z) :
  NoDup (compcor_candidates prefix N).
Proof.
  unfold compcor_candidates.
  apply NoDup_map_NoDup_ForallPairs; [|apply range_NoDup].
  intros x y Hx Hy H.
  apply append_cancel_l, append_cancel_l in H.
  apply range_nonneg in Hx, Hy.
  assert (parse_index (zero_padded2 x) = parse_index (zero_padded2 y)) as Hp
    by now rewrite H.
  rewrite !parse_index_padded in Hp by assumption. now injection Hp.
Qed.

Lemma compcor_candidates_first (prefix : string) (N : Z) (c : string) :
  In c (compcor_candidates prefix N) ->
  exists nn, (0 <= nn)%Z
             /\ c = prefix +s+ "_comp_cor_" +s+ zero_padded2 nn.
Proof.
  unfold compcor_candidates. rewrite in_map_iff.
  intros [nn [<- Hin]]. exists nn. split; [|reflexivity].
  exact (range_nonneg _ _ Hin).
Qed.

Lemma variant_candidates_facts (variant : string) (N : Z) :
  NoDup (variant_candidates variant N)
  /\ forall c, In c (variant_candidates variant N) ->
               component_like c = true /\ str_in "cosine" c = false.
Proof.
  assert (forall prefix c,
            prefix = "a" \/ prefix = "t" ->
            In c (compcor_candidates prefix N) ->
            component_like c = true /\ str_in "cosine" c = false) as Hone.
  { intros prefix c Hp Hin.
    apply compcor_candidates_first in Hin. destruct Hin as [nn [Hnn ->]].
    split; [destruct Hp as [-> | ->]; reflexivity|].
    destruct (str_in "cosine" (prefix +s+ "_comp_cor_" +s+ zero_padded2 nn))
      eqn:Hin; [|reflexivity].
    apply (has_char_substring "s") in Hin; [|reflexivity].
    rewrite !has_char_app, zero_padded2_no_s in Hin by assumption.
    destruct Hp as [-> | ->]; discriminate Hin. }
  unfold variant_candidates, compcor_prefixes.
  destruct (variant =? "anat"); [|destruct (variant =? "temp");
    [|destruct (variant =? "full")]]; cbn [flat_map]; rewrite ?app_nil_r.
  - split; [apply compcor_candidates_NoDup|]. intros c. apply Hone. now left.
  - split; [apply compcor_candidates_NoDup|]. intros c. apply Hone. now right.
  - split.
    + apply NoDup_app; try apply compcor_candidates_NoDup.
      intros c Ha Ht.
      apply compcor_candidates_first in Ha, Ht.
      destruct Ha as [x [_ ->]]. destruct Ht as [y [_ Ht]].
      discriminate Ht.
    + intros c Hin. apply in_app_or in Hin.
      destruct Hin as [Hin | Hin]; [apply (Hone "a") | apply (Hone "t")];
        tauto.
  - split; [constructor | intros c []].
Qed.

Lemma add_suffix_cases (params : list string) (model : string) :
  _add_suffix params model = _add_suffix params "full"
  \/ _add_suffix params model = _add_suffix params "derivatives"
  \/ _add_suffix params model = _add_suffix params "power2"
  \/ _add_suffix params model = params.
Proof.
  destruct (String.eqb_spec model "full") as [-> | Hf]; [now left|].
  destruct (String.eqb_spec model "derivatives") as [-> | Hd];
    [right; now left|].
  destruct (String.eqb_spec model "power2") as [-> | Hp];
    [right; right; now left|].
  right; right; right.
  apply String.eqb_neq in Hf, Hd, Hp.
  rewrite add_suffix_eq. unfold suffixed. rewrite Hf, Hd, Hp. simpl.
  assert (flat_map (fun _ : string => @nil string) params = []) as ->
    by (induction params as [|par params IH]; simpl; [reflexivity | exact IH]).
  apply app_nil_r.
Qed.

Lemma expansions_distinct (am aw ag : bool) (mm mw mg : string) :
  let names :=
    (if am then _add_suffix motion_bases mm else [])
    ++ (if aw then _add_suffix ["csf"; "white_matter"] mw else [])
    ++ (if ag then _add_suffix ["global_signal"] mg else []) in
  distinct names = true
  /\ forallb (fun name => negb (str_in "cosine" name)
                          && negb (component_like name)) names = true.
Proof.
  destruct am;
    [destruct (add_suffix_cases motion_bases mm) as [-> | [-> | [-> | ->]]]|];
    (destruct aw;
     [destruct (add_suffix_cases ["csf"; "white_matter"] mw)
        as [-> | [-> | [-> | ->]]]|]);
    (destruct ag;
     [destruct (add_suffix_cases ["global_signal"] mg)
        as [-> | [-> | [-> | ->]]]|]);
    vm_compute; split; reflexivity.
Qed.

Section Distinct.

Context {value : Type} {ext : External value}.
Implicit Types confounds_raw df : DataFrame value.
Implicit Types self : Confounds value.

Lemma expected_columns_NoDup self confounds_raw :
  NoDup (columns confounds_raw) ->
  NoDup (expected_columns self confounds_raw).
Proof.
  intros Hnd. unfold expected_columns.
  set (M := if in_atoms "motion" (strategy self)
            then _add_suffix motion_bases (motion self) else []).
  set (C := if in_atoms "high_pass" (strategy self)
            then filter (str_in "cosine") (columns confounds_raw) else []).
  set (W := if in_atoms "wm_csf" (strategy self)
            then _add_suffix ["csf"; "white_matter"] (wm_csf self) else []).
  set (G := if in_atoms "global" (strategy self)
            then _add_suffix ["global_signal"] (global_signal self) else []).
  set (K := if in_atoms "compcor" (strategy self)
            then sort (filter (fun c => mem c (columns confounds_raw))
                        (variant_candidates (compcor self) (n_compcor self)))
            else []).
  destruct (expansions_distinct (in_atoms "motion" (strategy self))
              (in_atoms "wm_csf" (strategy self))
              (in_atoms "global" (strategy self))
              (motion self) (wm_csf self) (global_signal self))
    as [Hdist Hplain].
  fold M W G in Hdist, Hplain. rewrite forallb_forall in Hplain.
  destruct (variant_candidates_facts (compcor self) (n_compcor self))
    as [Hknd Hkfacts].
  assert (forall c, In c K ->
            component_like c = true /\ str_in "cosine" c = false) as HK.
  { intros c Hin. unfold K in Hin.
    destruct (in_atoms "compcor" (strategy self)); [|contradiction].
    apply (Permutation_in _ (sort_permutation _)) in Hin.
    apply filter_In in Hin. now apply Hkfacts. }
  assert (NoDup K) as HKnd.
  { unfold K. destruct (in_atoms "compcor" (strategy self)); [|constructor].
    apply (Permutation_NoDup (Permutation_sym (sort_permutation _))).
    now apply NoDup_filter. }
  assert (NoDup C) as HCnd.
  { unfold C. destruct (in_atoms "high_pass" (strategy self)); [|constructor].
    now apply NoDup_filter. }
  assert (forall c, In c C -> str_in "cosine" c = true) as HC.
  { intros c Hin. unfold C in Hin.
    destruct (in_atoms "high_pass" (strategy self)); [|contradiction].
    apply filter_In in Hin. tauto. }
  assert (NoDup ((M ++ W ++ G) ++ K)) as Hrest.
  { apply NoDup_app; [now apply distinct_NoDup | exact HKnd |].
    intros c Hin HinK. apply Hplain in Hin. apply HK in HinK.
    destruct HinK as [Hlike _]. rewrite Hlike in Hin.
    now rewrite andb_false_r in Hin. }
  apply (Permutation_NoDup (l := C ++ (M ++ W ++ G) ++ K)).
  - rewrite <- !app_assoc. apply Permutation_app_swap_app.
  - apply NoDup_app; [exact HCnd | exact Hrest |].
    intros c HinC Hin. apply HC in HinC. apply in_app_or in Hin.
    destruct Hin as [Hin | Hin].
    + apply Hplain in Hin. rewrite HinC in Hin. discriminate Hin.
    + apply HK in Hin. destruct Hin as [_ Hin]. congruence.
Qed.

(** X22: when motion is not reduced, on a table whose column names do not
    repeat, no two columns of the table that [_load_single] returns have
    the same name: the names of the categories never collide. *)
Theorem load_single_distinct_columns self confounds_raw (w : list string)
    df :
  NoDup (columns confounds_raw) ->
  in_atoms "motion" (strategy self) = false \/ ~ (0 < n_motion self)%Q ->
  value_of (_load_single self (Frame confounds_raw)) w = Ok df ->
  NoDup (columns df).
Proof.
  intros Hnd Hn Hdf.
  destruct (load_single_without_reduction self confounds_raw w Hnd Hn)
    as [_ Hcols].
  destruct (Hcols df Hdf) as [-> _].
  now apply expected_columns_NoDup.
Qed.

End Distinct.

Lemma load_single_distinct_columns_witness :
  NoDup (columns raw_example)
  /\ (in_atoms "motion" (strategy confounds_6P) = false
      \/ ~ (0 < n_motion confounds_6P)%Q)
  /\ value_of (_load_single (ext := example_external) confounds_6P
                            (Frame raw_example)) [] = Ok selected_6P
  /\ NoDup (columns selected_6P).
Proof.
  assert (in_atoms "motion" (strategy confounds_6P) = false
          \/ ~ (0 < n_motion confounds_6P)%Q) as Hn
    by (right; intros H; discriminate H).
  split; [exact raw_example_distinct|]. split; [exact Hn|].
  split; [reflexivity|].
  exact (load_single_distinct_columns (ext := example_external) confounds_6P
           raw_example [] selected_6P raw_example_distinct Hn eq_refl).
Defined.

(** X23: the names that the selector returns are columns of the table,
    pairwise distinct, and at most [N + 1]; it never raises. *)
Theorem label_compcor_distinct {value} (confounds_raw : DataFrame value)
    (prefix : string) (N : Z) (w : list string) :
  exists names,
    value_of (_label_compcor confounds_raw prefix N) w = Ok names
    /\ NoDup names
    /\ (forall c, In c names -> In c (columns confounds_raw))
    /\ length names <= Z.to_nat (N + 1).
Proof.
  exists (filter (fun c => mem c (columns confounds_raw))
                 (compcor_candidates prefix N)).
  split; [|split; [|split]].
  - unfold value_of. now rewrite label_compcor_eq.
  - apply NoDup_filter, compcor_candidates_NoDup.
  - intros c Hin. apply filter_In in Hin. now apply mem_In.
  - pose proof (filter_length_le (fun c => mem c (columns confounds_raw))
                  (compcor_candidates prefix N)) as Hle.
    assert (length (compcor_candidates prefix N) = Z.to_nat (N + 1)) as Hlen
      by (unfold compcor_candidates, range;
          now rewrite !length_map, length_seq).
    now rewrite Hlen in Hle.
Qed.
